(** * The logarithmic spin-to-qubit mapper

    A shallow embedding of
    [qiskit_nature/mappers/second_quantization/logarithmic_mapper.py]:
    the class [LogarithmicMapper] with its three methods [map],
    [_logarithmic_encoding] and [_embed_matrix], together with the part of
    Python and numpy the methods rely on ([functools.reduce], [zip],
    [np.block], [np.eye], [np.zeros], [np.log2], [np.ceil], [int]).

    The operator algebra of qiskit ([PauliSumOp] with [@], [^], [+] and
    scalar [*]) and the Pauli decomposition are collaborators of the mapper:
    they enter as an interface ([OpAlgebra]).  A concrete instance (operators
    as matrices of Gaussian rationals) is given at the end and is used to run
    the mapper on examples. *)

From stdpp Require Import base tactics option list numbers strings.
From Stdlib Require Import ZArith QArith Lia.

Set Default Proof Using "Type".
Close Scope Q_scope.

(** ** Python exceptions raised by the mapper or under it *)

Inductive exception : Type :=
  | TypeError_reduce_empty      (* reduce() of empty sequence with no initial value *)
  | ValueError_location         (* "location must be one of EmbedLocation.UPPER or ..." *)
  | ValueError_does_not_fit (num_qubits : Z)
                                (* "The given matrix does not fit into the space ..." *)
  | ValueError_negative_shift   (* 1 << n with n < 0 *)
  | ValueError_block_shape      (* np.block on blocks whose shapes do not match *)
  | ValueError_nan_to_int       (* int(nan) *)
  | OverflowError_inf_to_int    (* int(-inf) *)
  | IndexError                  (* x[idx] out of range *)
  | SpinOp_error                (* raised by SpinOp(symbol, spin=spin).to_matrix() *)
  | TypeError_log2_object       (* np.log2 of a Python int outside int64 and uint64 *)
  | ValueError_from_operator.   (* raised by SparsePauliOp.from_operator *)

Inductive result (A : Type) : Type :=
  | Ok (a : A)
  | Err (e : exception).
Arguments Ok {A} a.
Arguments Err {A} e.

#[global] Instance result_ret : MRet result := λ A a, Ok a.
#[global] Instance result_bind : MBind result := λ A B f m,
  match m with
  | Ok a => f a
  | Err e => Err e
  end.

(** ** [functools.reduce] without an initial value, and [zip] *)

Definition reduce {A} (f : A → A → A) (l : list A) : result A :=
  match l with
  | [] => Err TypeError_reduce_empty
  | a :: l' => Ok (foldl f a l')
  end.

Fixpoint zip3 {A B D} (l1 : list A) (l2 : list B) (l3 : list D) : list (A * B * D) :=
  match l1, l2, l3 with
  | a :: l1', b :: l2', d :: l3' => (a, b, d) :: zip3 l1' l2' l3'
  | _, _, _ => []
  end.

(** ** numpy arrays and the numpy functions used by the mapper *)

(** The scalars of the arrays: numpy's [complex128] (a [float64] padding is
    promoted to it by [np.block]).  Only zero, one and the product are used
    by the mapper itself. *)
Class Scalar (C : Type) := {
  c0 : C;
  c1 : C;
  cmul : C → C → C;
}.

(** A two-dimensional array is the list of its rows. *)
Abbreviation ndarray C := (list (list C)) (only parsing).

Section Numpy.
Context {C : Type} {scalar : Scalar C}.

(** [matrix.shape[0]] *)
Definition shape0 (m : ndarray C) : Z := Z.of_nat (length m).

(** [m[i][j]] *)
Definition entry (m : ndarray C) (i j : nat) : option C :=
  row ← m !! i; row !! j.

(** [m] has [r] rows and [c] columns *)
Definition has_shape (r c : nat) (m : ndarray C) : Prop :=
  length m = r ∧ Forall (λ row, length row = c) m.

Definition has_shapeb (r c : nat) (m : ndarray C) : bool :=
  (length m =? r) && forallb (λ row, length row =? c) m.

(** [np.zeros((r, c), dtype=complex)] *)
Definition np_zeros (r c : nat) : ndarray C := replicate r (replicate c c0).

(** [np.eye(n)] *)
Definition eye_entry (i j : nat) : C := if i =? j then c1 else c0.
Definition np_eye (n : nat) : ndarray C :=
  (λ i, eye_entry i <$> seq 0 n) <$> seq 0 n.

(** [m * p] for an array [m] and a scalar [p] *)
Definition np_scale (m : ndarray C) (p : C) : ndarray C :=
  fmap (M := list) (λ e, cmul e p) <$> m.

(** [np.block([[a, b], [c, d]])]: the blocks of a row are joined side by
    side, which needs equally many rows, and the two block rows are put one
    over the other, which needs equally wide rows. *)
Definition hstack (a b : ndarray C) : result (ndarray C) :=
  if length a =? length b then Ok (zip_with app a b) else Err ValueError_block_shape.

Definition vstack (t b : ndarray C) : result (ndarray C) :=
  match t ++ b with
  | [] => Ok []
  | row :: _ =>
      if forallb (λ row', length row' =? length row) (t ++ b)
      then Ok (t ++ b) else Err ValueError_block_shape
  end.

Definition np_block (a b c d : ndarray C) : result (ndarray C) :=
  top ← hstack a b; bottom ← hstack c d; vstack top bottom.
End Numpy.

(** ** Floating point values met by [int(np.ceil(np.log2(dspin)))]

    [np.log2] is applied to a Python int.  numpy takes an int of the int64 or
    uint64 range as a float64 (rounded to nearest, ties to even) and any other
    int as an object, on which [np.log2] raises a TypeError.  The float64
    result is kept by what [np.ceil] and [int] can see of it: minus infinity
    (at 0), not-a-number (below 0), or a real number given by an integer [lo]
    and by whether it is that integer ([integral]) or lies strictly between
    [lo] and [lo + 1].

    The logarithm is taken as correctly rounded (numpy's is within one unit
    in the last place of that).  The logarithm of a power of two is exact.
    Otherwise [log2 x] lies strictly between [k] and [k + 1] for
    [k = floor (log2 x)], and the float64 result is [k] when
    [log2 x - k] is less than half a unit in the last place at [k], which is
    [2^(e - 53)] for [e = floor (log2 k)]; with [log2 (1 + t) < h] read as
    [t < h * ln 2] (the two differ by a factor within 2^-48 of 1, which no
    float64 [x] falls into).  In the same way the result is [k + 1] when
    [k + 1 - log2 x] is less than half a unit in the last place below
    [k + 1]. *)
Inductive np_float : Type :=
  | f_neg_inf
  | f_nan
  | f_real (lo : Z) (integral : bool).

(** [ln 2 = 0.6931471805599453...] as a fraction *)
Definition ln2_num : Z := 6931471805599453.
Definition ln2_den : Z := 10000000000000000.

(** The float64 nearest to the integer [d > 0], ties to even, as the integer
    it is: 53 bits are kept. *)
Definition float64_of_int (d : Z) : Z :=
  let bits := Z.log2 d in
  if (bits <=? 52)%Z then d
  else
    let s := (bits - 52)%Z in
    let q := Z.shiftr d s in
    let r := (d - Z.shiftl q s)%Z in
    let half := Z.shiftl 1 (s - 1) in
    let q' := if (half <? r)%Z || ((r =? half)%Z && Z.odd q) then (q + 1)%Z else q in
    Z.shiftl q' s.

(** [log2] of a float64 whose value is the integer [x > 0] *)
Definition float64_log2 (x : Z) : np_float :=
  let k := Z.log2 x in
  let below := (x - 2 ^ k)%Z in
  let above := (2 ^ (k + 1) - x)%Z in
  let half_ulps := (2 ^ (53 - Z.log2 k))%Z in
  if (below =? 0)%Z then f_real k true
  else if (below * half_ulps * ln2_den <? ln2_num * 2 ^ k)%Z then f_real k true
  else if (above * half_ulps * ln2_den <? ln2_num * x)%Z then f_real (k + 1) true
  else f_real k false.

(** [np.log2(d)] for a Python int [d] *)
Definition np_log2 (d : Z) : result np_float :=
  if ((d <? - 2 ^ 63) || (2 ^ 64 <=? d))%Z then Err TypeError_log2_object
  else if (d <? 0)%Z then Ok f_nan
  else if (d =? 0)%Z then Ok f_neg_inf
  else Ok (float64_log2 (float64_of_int d)).

Definition np_ceil (f : np_float) : np_float :=
  match f with
  | f_real lo false => f_real (lo + 1) true
  | _ => f
  end.

(** [int(f)] for a float [f]: truncation towards zero *)
Definition int_of_float (f : np_float) : result Z :=
  match f with
  | f_neg_inf => Err OverflowError_inf_to_int
  | f_nan => Err ValueError_nan_to_int
  | f_real lo true => Ok lo
  | f_real lo false => Ok (if (0 <=? lo)%Z then lo else lo + 1)%Z
  end.

(** [int(q)] for a [Fraction] (or an [int]): truncation towards zero *)
Definition int_of_fraction (q : Q) : Z := Z.quot (Qnum q) (Z.pos (Qden q)).

(** [1 << n] *)
Definition lshift1 (n : Z) : result Z :=
  if (n <? 0)%Z then Err ValueError_negative_shift else Ok (Z.shiftl 1 n).

(** ** The collaborators of the mapper *)

(** [PauliSumOp]: [a @ b], [a ^ b], [a + b], [coeff * a], and the
    construction of a [PauliSumOp] from an embedded matrix, which is
    [Operator(matrix)] of line 145 (it takes every two-dimensional array) and
    then [SparsePauliOp.from_operator], [chop] and [PauliSumOp(1.0 * op)] of
    lines 147-149.  The decomposition may raise: it does on a matrix that is
    not on at least one qubit. *)
Class OpAlgebra (C Op : Type) := {
  op_matmul : Op → Op → Op;
  op_tensor : Op → Op → Op;
  op_add : Op → Op → Op;
  op_smul : C → Op → Op;
  pauli_sum_of_matrix : ndarray C → result Op;
}.

Inductive symbol : Type := sym_X | sym_Y | sym_Z.

(** [SpinOp(symbol, spin=spin).to_matrix()], the spin matrix of an axis.  It
    may raise. *)
Class SpinMatrices (C : Type) := {
  spin_to_matrix : symbol → Q → result (ndarray C);
}.

(** Modelled from the spec: the class [SpinOp] of
    [qiskit_nature.operators.second_quantization], whose source is not at
    hand.  An operator is its spin and the ordered sequence of its terms; a
    term is a coefficient and, per mode, the exponents of X, Y and Z.  The
    mapper reads it through [spin], [to_list()], [x], [y] and [z], where
    [x[idx]] is the array of the X exponents of term [idx]. *)
Module SpinOp.
Record term (C : Type) : Type := Term {
  label : string;
  coeff : C;
  exponents : list (Z * Z * Z);
}.
Arguments Term {C} label coeff exponents.
Arguments label {C} _.
Arguments coeff {C} _.
Arguments exponents {C} _.

Record t (C : Type) : Type := Make {
  spin : Q;
  terms : list (term C);
}.
Arguments Make {C} spin terms.
Arguments spin {C} _.
Arguments terms {C} _.

Definition to_list {C} (op : t C) : list (string * C) :=
  (λ tm, (label tm, coeff tm)) <$> terms op.
Definition x {C} (op : t C) : list (list Z) :=
  (λ tm, (λ e : Z * Z * Z, e.1.1) <$> exponents tm) <$> terms op.
Definition y {C} (op : t C) : list (list Z) :=
  (λ tm, (λ e : Z * Z * Z, e.1.2) <$> exponents tm) <$> terms op.
Definition z {C} (op : t C) : list (list Z) :=
  (λ tm, (λ e : Z * Z * Z, e.2) <$> exponents tm) <$> terms op.
End SpinOp.

(** ** The mapper object and the heap the methods run on *)

Inductive EmbedLocation : Type := UPPER | LOWER.

(** What the attribute [_location] holds: the constructor stores its argument
    unchecked, so it may be a member of the enumeration or any other value. *)
Inductive location_value : Type :=
  | Member (l : EmbedLocation)
  | NonMember.

Record mapper_object (C : Type) : Type := Mapper {
  _padding : C;
  _location : location_value;
}.
Arguments Mapper {C} _ _.
Arguments _padding {C} _.
Arguments _location {C} _.

(** [LogarithmicMapper(padding, location)]: both arguments are stored as they
    come.  The defaults are padding 1 and location UPPER. *)
Definition __init__ {C} (padding : C) (location : location_value) : mapper_object C :=
  Mapper padding location.

(** The objects a call can reach: the mapper ([self]) and the operator passed
    to [map] ([second_q_op]). *)
Record heap (C : Type) : Type := Heap {
  self : mapper_object C;
  second_q_op : SpinOp.t C;
}.
Arguments Heap {C} _ _.
Arguments self {C} _.
Arguments second_q_op {C} _.

(** A method body: it runs on a heap, returns or raises, and leaves a heap. *)
Definition M (C A : Type) : Type := heap C → result A * heap C.

#[global] Instance M_ret {C} : MRet (M C) := λ A a h, (Ok a, h).
#[global] Instance M_bind {C} : MBind (M C) := λ A B f m h,
  match m h with
  | (Ok a, h') => f a h'
  | (Err e, h') => (Err e, h')
  end.

Definition raise {C A} (e : exception) : M C A := λ h, (Err e, h).
Definition lift {C A} (r : result A) : M C A := λ h, (r, h).
(** attribute access *)
Definition read {C A} (f : heap C → A) : M C A := λ h, (Ok (f h), h).
(** attribute assignment; [__init__] is the only place of the class that assigns *)
Definition assign {C} (f : heap C → heap C) : M C unit := λ h, (Ok (), f h).

(** [l[idx]] *)
Definition index {A} (l : list A) (idx : nat) : result A :=
  match l !! idx with
  | Some a => Ok a
  | None => Err IndexError
  end.

(** ** The methods of [LogarithmicMapper] *)

Module LogarithmicMapper.
Section Methods.
Context {C Op : Type} {scalar : Scalar C} {algebra : OpAlgebra C Op} {provider : SpinMatrices C}.

(** [_embed_matrix(self, matrix, num_qubits)], lines 189-231 *)
Definition _embed_matrix (matrix : ndarray C) (num_qubits : Z) : M C (ndarray C) :=
  full_dim ← lift (lshift1 num_qubits);
  let subs_dim := shape0 matrix in
  let dim_diff := (full_dim - subs_dim)%Z in
  if (dim_diff =? 0)%Z then mret matrix
  else if (dim_diff >? 0)%Z then
    location ← read (λ h, _location (self h));
    match location with
    | Member LOWER =>
        padding ← read (λ h, _padding (self h));
        lift (np_block
                (np_scale (np_eye (Z.to_nat dim_diff)) padding)
                (np_zeros (Z.to_nat dim_diff) (Z.to_nat subs_dim))
                (np_zeros (Z.to_nat subs_dim) (Z.to_nat dim_diff))
                matrix)
    | Member UPPER =>
        padding ← read (λ h, _padding (self h));
        lift (np_block
                matrix
                (np_zeros (Z.to_nat subs_dim) (Z.to_nat dim_diff))
                (np_zeros (Z.to_nat dim_diff) (Z.to_nat subs_dim))
                (np_scale (np_eye (Z.to_nat dim_diff)) padding))
    | NonMember => raise ValueError_location
    end
  else raise (ValueError_does_not_fit num_qubits).

(** Lines 131-132: the dimension of a spin and the number of qubits *)
Definition dspin_of (spin : Q) : Z := int_of_fraction (2 * spin + 1)%Q.
Definition num_qubits_of (spin : Q) : result Z :=
  log ← np_log2 (dspin_of spin); int_of_float (np_ceil log).

(** [_logarithmic_encoding(self, spin)], lines 130-151.  The comprehensions
    run over the three symbols of ["XYZ"] and then over the four matrices
    (the identity [np.eye(dspin)] last); they are written out here, and so is
    the loop of lines 146-149 over the four operators. *)
Definition _logarithmic_encoding (spin : Q) : M C (Op * Op * Op * Op) :=
  let dspin := dspin_of spin in
  num_qubits ← lift (num_qubits_of spin);
  matrix_x ← lift (spin_to_matrix sym_X spin);
  matrix_y ← lift (spin_to_matrix sym_Y spin);
  matrix_z ← lift (spin_to_matrix sym_Z spin);
  let matrix_i := np_eye (Z.to_nat dspin) in
  embedded_x ← _embed_matrix matrix_x num_qubits;
  embedded_y ← _embed_matrix matrix_y num_qubits;
  embedded_z ← _embed_matrix matrix_z num_qubits;
  embedded_i ← _embed_matrix matrix_i num_qubits;
  spinx ← lift (pauli_sum_of_matrix embedded_x);
  spiny ← lift (pauli_sum_of_matrix embedded_y);
  spinz ← lift (pauli_sum_of_matrix embedded_z);
  identity ← lift (pauli_sum_of_matrix embedded_i);
  mret (spinx, spiny, spinz, identity).

(** Lines 93-110: the operator of one mode, from its three exponents *)
Definition operator_on_spin_i (spinx spiny spinz identity : Op) (n : Z * Z * Z) : result Op :=
  let '(n_x, n_y, n_z) := n in
  let operator_on_spin_i : list Op := [] in
  operator_on_spin_i ←
    (if (n_x >? 0)%Z
     then p ← reduce op_matmul (replicate (Z.to_nat n_x) spinx); mret (operator_on_spin_i ++ [p])
     else mret operator_on_spin_i);
  operator_on_spin_i ←
    (if (n_y >? 0)%Z
     then p ← reduce op_matmul (replicate (Z.to_nat n_y) spiny); mret (operator_on_spin_i ++ [p])
     else mret operator_on_spin_i);
  operator_on_spin_i ←
    (if (n_z >? 0)%Z
     then p ← reduce op_matmul (replicate (Z.to_nat n_z) spinz); mret (operator_on_spin_i ++ [p])
     else mret operator_on_spin_i);
  match operator_on_spin_i with
  | _ :: _ => reduce op_matmul operator_on_spin_i
  | [] => mret identity
  end.

(** Lines 89-113: the operator of one term, from its coefficient and the
    zipped exponent arrays *)
Definition term_operator (spinx spiny spinz identity : Op)
    (coeff : C) (zipped : list (Z * Z * Z)) : result Op :=
  operatorlist ← mapM (operator_on_spin_i spinx spiny spinz identity) zipped;
  tensored ← reduce op_tensor (reverse operatorlist);
  mret (op_smul coeff tensored).

(** Lines 87-113: one pass of the loop over the terms, for the item
    [(idx, (_, coeff))] of [enumerate(second_q_op.to_list())] *)
Definition map_term (spinx spiny spinz identity : Op) (item : nat * (string * C)) : M C Op :=
  let '(idx, (_, coeff)) := item in
  xs ← read (λ h, SpinOp.x (second_q_op h)); x_idx ← lift (index xs idx);
  ys ← read (λ h, SpinOp.y (second_q_op h)); y_idx ← lift (index ys idx);
  zs ← read (λ h, SpinOp.z (second_q_op h)); z_idx ← lift (index zs idx);
  lift (term_operator spinx spiny spinz identity coeff (zip3 x_idx y_idx z_idx)).

(** [map(self, second_q_op)], lines 83-117 *)
Definition map : M C Op :=
  spin ← read (λ h, SpinOp.spin (second_q_op h));
  encoding ← _logarithmic_encoding spin;
  let '(spinx, spiny, spinz, identity) := encoding in
  to_list ← read (λ h, SpinOp.to_list (second_q_op h));
  qubit_ops_list ←
    mapM (map_term spinx spiny spinz identity) (zip (seq 0 (length to_list)) to_list);
  lift (reduce op_add qubit_ops_list).
End Methods.
End LogarithmicMapper.

(** ** The specification's wording of the per-mode and per-term operators

    These definitions follow the design document, not the code; the theorems
    below compare them with [operator_on_spin_i] and [term_operator]. *)

Section SpecWording.
Context {C Op : Type} {algebra : OpAlgebra C Op}.

(** an operator composed with itself, [k] factors in all ([k] at least 1) *)
Fixpoint composed_times (a : Op) (k : nat) : Op :=
  match k with
  | 0 => a
  | 1 => a
  | S k' => op_matmul (composed_times a k') a
  end.

(** the local operator of a mode with exponents [a], [b], [c] *)
Definition local_operator (Xq Yq Zq Iq : Op) (a b c : nat) : Op :=
  match a, b, c with
  | 0, 0, 0 => Iq
  | S _, 0, 0 => composed_times Xq a
  | 0, S _, 0 => composed_times Yq b
  | 0, 0, S _ => composed_times Zq c
  | S _, S _, 0 => op_matmul (composed_times Xq a) (composed_times Yq b)
  | S _, 0, S _ => op_matmul (composed_times Xq a) (composed_times Zq c)
  | 0, S _, S _ => op_matmul (composed_times Yq b) (composed_times Zq c)
  | S _, S _, S _ =>
      op_matmul (op_matmul (composed_times Xq a) (composed_times Yq b)) (composed_times Zq c)
  end.

Definition local_operator_of (Xq Yq Zq Iq : Op) (n : Z * Z * Z) : Op :=
  local_operator Xq Yq Zq Iq (Z.to_nat n.1.1) (Z.to_nat n.1.2) (Z.to_nat n.2).

(** the local operators of modes 0, 1, ... tensored in reverse mode order:
    the last mode is the leftmost factor.  [default] is never reached on a
    list that is not empty. *)
Fixpoint tensored_reversed (default : Op) (locals : list Op) : Op :=
  match locals with
  | [] => default
  | [l] => l
  | l :: rest => op_tensor (tensored_reversed default rest) l
  end.
End SpecWording.

(** ** A concrete operator algebra: matrices of Gaussian rationals

    An operator is represented by its matrix, [@] is the matrix product, [^]
    the Kronecker product.  It instantiates the interfaces above so that the
    mapper can be run. *)

Module Gaussian.
(** real and imaginary part, both kept in lowest terms *)
Definition gq : Type := Q * Q.

Definition gq_add (u v : gq) : gq := (Qred (u.1 + v.1)%Q, Qred (u.2 + v.2)%Q).
Definition gq_mul (u v : gq) : gq :=
  (Qred (u.1 * v.1 - u.2 * v.2)%Q, Qred (u.1 * v.2 + u.2 * v.1)%Q).

#[global] Instance gq_scalar : Scalar gq :=
  {| c0 := (0, 0)%Q; c1 := (1, 0)%Q; cmul := gq_mul |}.

Definition ncols (m : ndarray gq) : nat :=
  match m with [] => 0 | row :: _ => length row end.
Definition column (m : ndarray gq) (j : nat) : list gq :=
  List.map (λ row, nth j row c0) m.
Definition dot (u v : list gq) : gq :=
  foldl gq_add c0 (zip_with gq_mul u v).

Definition mat_mul (a b : ndarray gq) : ndarray gq :=
  List.map (λ row, List.map (λ j, dot row (column b j)) (seq 0 (ncols b))) a.
Definition kron (a b : ndarray gq) : ndarray gq :=
  flat_map (λ ra, List.map (λ rb, flat_map (λ ea, List.map (gq_mul ea) rb) ra) b) a.
Definition mat_add (a b : ndarray gq) : ndarray gq :=
  zip_with (zip_with gq_add) a b.
Definition mat_scale (k : gq) (a : ndarray gq) : ndarray gq :=
  List.map (List.map (gq_mul k)) a.
(** the element-wise product, for comparison with [mat_mul] *)
Definition mat_hadamard (a b : ndarray gq) : ndarray gq :=
  zip_with (zip_with gq_mul) a b.

(** A matrix stands for an operator on qubits when it is 2^n by 2^n with n at
    least one; on any other matrix the decomposition raises. *)
Definition on_qubits (m : ndarray gq) : bool :=
  let rows := Z.of_nat (length m) in
  (2 <=? rows)%Z && (rows =? 2 ^ Z.log2 rows)%Z && has_shapeb (length m) (length m) m.

#[global] Instance matrix_algebra : OpAlgebra gq (ndarray gq) :=
  {| op_matmul := mat_mul; op_tensor := kron; op_add := mat_add;
     op_smul := mat_scale;
     pauli_sum_of_matrix := λ m, if on_qubits m then Ok m else Err ValueError_from_operator |}.

Definition half : gq := (1 # 2, 0)%Q.
Definition half_i : gq := (0, 1 # 2)%Q.
Definition minus_half : gq := (-1 # 2, 0)%Q.
Definition minus_half_i : gq := (0, -1 # 2)%Q.

(** the matrices of spin 1/2 *)
Definition spin_half (s : symbol) : ndarray gq :=
  match s with
  | sym_X => [[c0; half]; [half; c0]]
  | sym_Y => [[c0; minus_half_i]; [half_i; c0]]
  | sym_Z => [[half; c0]; [c0; minus_half]]
  end.

(** is [spin] a non-negative half-integer? *)
Definition valid_spin (spin : Q) : bool :=
  (0 <=? Qnum spin)%Z && (Qden (Qred (2 * spin)%Q) =? 1)%positive.

(** A provider of spin matrices that knows spin 1/2 and refuses every spin
    that is not a non-negative half-integer. *)
Definition checked_provider : SpinMatrices gq :=
  {| spin_to_matrix := λ s spin,
       if valid_spin spin && (int_of_fraction (2 * spin + 1)%Q =? 2)%Z
       then Ok (spin_half s) else Err SpinOp_error |}.

(** A provider that takes the dimension to be [int(2 * spin + 1)] without
    looking at the spin any further. *)
Definition unchecked_provider : SpinMatrices gq :=
  {| spin_to_matrix := λ s spin,
       if (int_of_fraction (2 * spin + 1)%Q =? 2)%Z
       then Ok (spin_half s) else Err SpinOp_error |}.

Definition default_mapper : mapper_object gq := __init__ c1 (Member UPPER).

(** [Sz] of spin 1 *)
Definition spin_one_z : ndarray gq :=
  [[c1; c0; c0]; [c0; c0; c0]; [c0; c0; (-1, 0)%Q]].

(** [2 X_0 Y_1 + X_0^2] on two modes of spin 1/2, and its two terms *)
Definition term_xy : SpinOp.term gq :=
  SpinOp.Term "X_0 Y_1" (2, 0)%Q [(1, 0, 0); (0, 1, 0)]%Z.
Definition term_xx : SpinOp.term gq :=
  SpinOp.Term "X_0^2" c1 [(2, 0, 0); (0, 0, 0)]%Z.
Definition two_terms : SpinOp.t gq := SpinOp.Make (1 # 2) [term_xy; term_xx].

(** an operator of spin 1/2 without terms *)
Definition no_terms : SpinOp.t gq := SpinOp.Make (1 # 2) [].

Definition heap_of (op : SpinOp.t gq) : heap gq := Heap default_mapper op.
End Gaussian.

(** ** The block form of an embedded matrix, as the specification words it *)

Section BlockForm.
Context {C : Type} {scalar : Scalar C}.

(** [full] is [[matrix, 0], [0, padding * I]]: [matrix] is [d] by [d] and
    [full] is [D] by [D]. *)
Definition embedded_upper (padding : C) (matrix : ndarray C) (d D : nat)
    (full : ndarray C) : Prop :=
  has_shape D D full ∧
  (∀ i j, i < d → j < d → entry full i j = entry matrix i j) ∧
  (∀ i j, d ≤ i < D → d ≤ j < D →
     entry full i j = Some (cmul (eye_entry (i - d) (j - d)) padding)) ∧
  (∀ i j, i < d → d ≤ j < D → entry full i j = Some c0) ∧
  (∀ i j, d ≤ i < D → j < d → entry full i j = Some c0).

(** [full] is [[padding * I, 0], [0, matrix]] *)
Definition embedded_lower (padding : C) (matrix : ndarray C) (d D : nat)
    (full : ndarray C) : Prop :=
  has_shape D D full ∧
  (∀ i j, i < d → j < d → entry full (D - d + i) (D - d + j) = entry matrix i j) ∧
  (∀ i j, i < D - d → j < D - d →
     entry full i j = Some (cmul (eye_entry i j) padding)) ∧
  (∀ i j, i < D - d → D - d ≤ j < D → entry full i j = Some c0) ∧
  (∀ i j, D - d ≤ i < D → j < D - d → entry full i j = Some c0).

Definition block_embedded (location : EmbedLocation) :=
  match location with
  | UPPER => embedded_upper
  | LOWER => embedded_lower
  end.

Definition is_dimension_error {A} (r : result A) : Prop :=
  ∃ num_qubits, r = Err (ValueError_does_not_fit num_qubits).
End BlockForm.

(** ** Methods that only read *)

(** A method body is read-only when every run leaves the heap it started
    from. *)
Definition read_only {C A} (m : M C A) : Prop := ∀ h, (m h).2 = h.

(** A method body reads nothing but the mapper when its result is the same on
    any two heaps that hold the same mapper. *)
Definition reads_self_only {C A} (m : M C A) : Prop :=
  ∀ h h', self h = self h' → (m h).1 = (m h').1.

(** Exceptions that report a spin that is not a non-negative half-integer.
    The mapper has no such exception of its own; the one of [SpinOp] is the
    only candidate under it. *)
Definition is_invalid_spin_error (e : exception) : bool :=
  match e with
  | SpinOp_error => true
  | _ => false
  end.

(** ** Reading an embedded matrix back, and the value of a term *)

(** The block of [h] rows and [w] columns of [m] whose upper-left corner is
    at row [r] and column [c]: [m[r:r+h, c:c+w]]. *)
Definition sub_block {C} (r c h w : nat) (m : ndarray C) : ndarray C :=
  (λ row, take w (drop c row)) <$> take h (drop r m).

(** Where [_embed_matrix] puts the matrix on the diagonal of a [D] by [D]
    matrix: at 0 for UPPER, behind the padding for LOWER. *)
Definition block_offset (location : EmbedLocation) (d D : nat) : nat :=
  match location with
  | UPPER => 0
  | LOWER => D - d
  end.

(** The operator a term stands for, in the specification's wording: the
    coefficient times the reversed tensor product of the local operators. *)
Definition term_value {C Op} {algebra : OpAlgebra C Op}
    (Xq Yq Zq Iq : Op) (tm : SpinOp.term C) : Op :=
  op_smul (SpinOp.coeff tm)
    (tensored_reversed Iq (local_operator_of Xq Yq Zq Iq <$> SpinOp.exponents tm)).

(** ** More matrices of Gaussian rationals to run the mapper on *)

Module GaussianMore.
Import Gaussian.

Definition i_unit : gq := (0, 1)%Q.
Definition minus_i_unit : gq := (0, -1)%Q.

(** The matrices of spin 1.  [Sx] and [Sy] have entries with the factor
    1/sqrt 2, which is no Gaussian rational: they are given in units of
    1/sqrt 2, [Sz] as it is. *)
Definition spin_one (s : symbol) : ndarray gq :=
  match s with
  | sym_X => [[c0; c1; c0]; [c1; c0; c1]; [c0; c1; c0]]
  | sym_Y => [[c0; minus_i_unit; c0]; [i_unit; c0; minus_i_unit]; [c0; i_unit; c0]]
  | sym_Z => spin_one_z
  end.

(** a provider that knows spin 1 *)
Definition spin_one_provider : SpinMatrices gq :=
  {| spin_to_matrix := λ s spin,
       if valid_spin spin && (int_of_fraction (2 * spin + 1)%Q =? 3)%Z
       then Ok (spin_one s) else Err SpinOp_error |}.

(** The matrices of spin 0 are the 1 by 1 zero matrix. *)
Definition spin_zero_provider : SpinMatrices gq :=
  {| spin_to_matrix := λ s spin,
       if valid_spin spin && (int_of_fraction (2 * spin + 1)%Q =? 1)%Z
       then Ok [[c0]] else Err SpinOp_error |}.

(** two rows of three columns *)
Definition two_by_three : ndarray gq := [[c0; c1; c0]; [c1; c0; c1]].

(** a mapper whose location is no member of the enumeration *)
Definition odd_mapper : mapper_object gq := __init__ half NonMember.
End GaussianMore.

(** * Properties *)

(** ** numpy arrays *)

Section NumpyFacts.
Context {C : Type} {scalar : Scalar C}.
Implicit Types (m a b c d : ndarray C) (i j r w : nat).

Lemma has_shape_row r w m i row :
  has_shape r w m → m !! i = Some row → length row = w.
Proof.
  intros [_ Hrows] Hi. rewrite Forall_lookup in Hrows. by eapply Hrows.
Qed.

Lemma has_shapeb_spec r w m : has_shapeb r w m = true ↔ has_shape r w m.
Proof.
  unfold has_shapeb, has_shape.
  rewrite andb_true_iff, Nat.eqb_eq, forallb_forall, Forall_forall.
  split; intros [-> Hrows]; split; try reflexivity; intros row Hin.
  - apply Nat.eqb_eq, Hrows. by apply list_elem_of_In.
  - apply Nat.eqb_eq, Hrows. by apply list_elem_of_In.
Qed.

Lemma np_zeros_shape r w : has_shape r w (np_zeros r w).
Proof.
  split; [apply length_replicate |].
  apply Forall_replicate, length_replicate.
Qed.

Lemma np_zeros_entry r w i j : i < r → j < w → entry (np_zeros r w) i j = Some c0.
Proof.
  intros Hi Hj. unfold entry, np_zeros.
  rewrite (lookup_replicate_2 _ _ _ Hi). simpl. by apply lookup_replicate_2.
Qed.

Lemma np_eye_scaled_shape r (p : C) : has_shape r r (np_scale (np_eye r) p).
Proof.
  unfold np_scale, np_eye. split.
  - by rewrite !length_fmap, length_seq.
  - rewrite Forall_fmap, Forall_fmap. apply Forall_forall. intros i _. simpl.
    by rewrite !length_fmap, length_seq.
Qed.

Lemma np_eye_scaled_entry r (p : C) i j :
  i < r → j < r → entry (np_scale (np_eye r) p) i j = Some (cmul (eye_entry i j) p).
Proof.
  intros Hi Hj. unfold entry, np_scale, np_eye.
  rewrite !list_lookup_fmap, (lookup_seq_lt _ _ _ Hi). simpl.
  by rewrite !list_lookup_fmap, (lookup_seq_lt _ _ _ Hj).
Qed.

Lemma vstack_ok w t b :
  Forall (λ row, length row = w) t → Forall (λ row, length row = w) b →
  vstack t b = Ok (t ++ b).
Proof.
  intros Ht Hb. unfold vstack.
  assert (Hall : Forall (λ row, length row = w) (t ++ b)) by by apply Forall_app.
  destruct (t ++ b) as [|row l] eqn:E; [done |].
  assert (Hrow : length row = w) by by inversion Hall.
  replace (forallb _ _) with true; [done |].
  symmetry. apply forallb_forall. intros row' Hin. apply Nat.eqb_eq.
  rewrite Hrow. rewrite Forall_forall in Hall. apply Hall. by apply list_elem_of_In.
Qed.

Lemma zip_with_app_shape r w1 w2 a b :
  has_shape r w1 a → has_shape r w2 b → has_shape r (w1 + w2) (zip_with app a b).
Proof.
  intros [Hla Ha] [Hlb Hb]. split.
  - rewrite length_zip_with. lia.
  - apply Forall_lookup. intros i row Hi.
    apply lookup_zip_with_Some in Hi as (ra & rb & -> & Hra & Hrb).
    rewrite length_app.
    rewrite Forall_lookup in Ha, Hb. by rewrite (Ha _ _ Hra), (Hb _ _ Hrb).
Qed.

(** The four blocks fit, and [np.block] puts them together. *)
Lemma np_block_ok r1 r2 w1 w2 a b c d :
  has_shape r1 w1 a → has_shape r1 w2 b → has_shape r2 w1 c → has_shape r2 w2 d →
  np_block a b c d = Ok (zip_with app a b ++ zip_with app c d).
Proof.
  intros Ha Hb Hc Hd. unfold np_block, hstack.
  destruct Ha as [Hla Ha], Hb as [Hlb Hb], Hc as [Hlc Hc], Hd as [Hld Hd].
  rewrite Hla, Hlb, Hlc, Hld, !Nat.eqb_refl. simpl.
  apply (vstack_ok (w1 + w2)); by eapply zip_with_app_shape.
Qed.

Lemma block_shape r1 r2 w1 w2 a b c d :
  has_shape r1 w1 a → has_shape r1 w2 b → has_shape r2 w1 c → has_shape r2 w2 d →
  has_shape (r1 + r2) (w1 + w2) (zip_with app a b ++ zip_with app c d).
Proof.
  intros Ha Hb Hc Hd.
  destruct (zip_with_app_shape _ _ _ _ _ Ha Hb) as [Hl1 Hr1].
  destruct (zip_with_app_shape _ _ _ _ _ Hc Hd) as [Hl2 Hr2].
  split; [rewrite length_app; lia | by apply Forall_app].
Qed.

Lemma hstack_entry_left r w1 w2 a b i j :
  has_shape r w1 a → has_shape r w2 b → i < r → j < w1 →
  entry (zip_with app a b) i j = entry a i j.
Proof.
  intros Ha Hb Hi Hj. unfold entry. rewrite lookup_zip_with.
  destruct (a !! i) as [ra|] eqn:Era; [simpl | done].
  destruct (lookup_lt_is_Some_2 b i) as [rb Erb]; [destruct Hb; lia |].
  rewrite Erb. simpl. apply lookup_app_l.
  by rewrite (has_shape_row _ _ _ _ _ Ha Era).
Qed.

Lemma hstack_entry_right r w1 w2 a b i j :
  has_shape r w1 a → has_shape r w2 b → i < r → w1 ≤ j →
  entry (zip_with app a b) i j = entry b i (j - w1).
Proof.
  intros Ha Hb Hi Hj. unfold entry. rewrite lookup_zip_with.
  destruct (lookup_lt_is_Some_2 a i) as [ra Era]; [destruct Ha; lia |].
  destruct (lookup_lt_is_Some_2 b i) as [rb Erb]; [destruct Hb; lia |].
  rewrite Era, Erb. simpl.
  rewrite lookup_app_r; rewrite (has_shape_row _ _ _ _ _ Ha Era); done.
Qed.

Lemma vstack_entry_top t b i j :
  i < length t → entry (t ++ b) i j = entry t i j.
Proof. intros Hi. unfold entry. by rewrite lookup_app_l. Qed.

Lemma vstack_entry_bottom t b i j :
  length t ≤ i → entry (t ++ b) i j = entry b (i - length t) j.
Proof. intros Hi. unfold entry. by rewrite lookup_app_r. Qed.
End NumpyFacts.

(** ** [_embed_matrix] *)

Section EmbedMatrix.
Context {C : Type} {scalar : Scalar C}.
Implicit Types (matrix full : ndarray C) (num_qubits : Z) (h : heap C).

Import LogarithmicMapper.

Lemma lshift1_nonneg num_qubits :
  (0 ≤ num_qubits)%Z → lshift1 num_qubits = Ok (2 ^ num_qubits)%Z.
Proof.
  intros Hn. unfold lshift1.
  destruct (Z.ltb_spec num_qubits 0); [lia |]. by rewrite Z.shiftl_1_l.
Qed.

(** What [_embed_matrix] does in each of its branches, for a register that
    exists. *)
Lemma embed_matrix_branches matrix num_qubits h :
  (0 ≤ num_qubits)%Z →
  let dim_diff := (2 ^ num_qubits - shape0 matrix)%Z in
  let sd := length matrix in
  let dd := Z.to_nat dim_diff in
  _embed_matrix matrix num_qubits h =
    (if (dim_diff =? 0)%Z then Ok matrix
     else if (dim_diff >? 0)%Z then
       match _location (self h) with
       | Member LOWER =>
           np_block (np_scale (np_eye dd) (_padding (self h))) (np_zeros dd sd)
                    (np_zeros sd dd) matrix
       | Member UPPER =>
           np_block matrix (np_zeros sd dd)
                    (np_zeros dd sd) (np_scale (np_eye dd) (_padding (self h)))
       | NonMember => Err ValueError_location
       end
     else Err (ValueError_does_not_fit num_qubits), h).
Proof.
  intros Hn dim_diff sd dd. unfold _embed_matrix.
  unfold mbind, M_bind, lift, read, raise, mret, M_ret.
  rewrite (lshift1_nonneg _ Hn). fold dim_diff.
  destruct (dim_diff =? 0)%Z; [done |].
  destruct (dim_diff >? 0)%Z; [| done].
  unfold shape0. rewrite Nat2Z.id. fold sd dd.
  by destruct (_location (self h)) as [[] |].
Qed.

Lemma upper_block_form padding matrix d dd :
  has_shape d d matrix →
  embedded_upper padding matrix d (d + dd)
    (zip_with app matrix (np_zeros d dd) ++
     zip_with app (np_zeros dd d) (np_scale (np_eye dd) padding)).
Proof.
  intros Hm.
  pose proof (np_zeros_shape (C := C) d dd) as Hz1.
  pose proof (np_zeros_shape (C := C) dd d) as Hz2.
  pose proof (np_eye_scaled_shape dd padding) as He.
  pose proof (zip_with_app_shape _ _ _ _ _ Hm Hz1) as [Hlt _].
  repeat split.
  - apply (block_shape d dd d dd); assumption.
  - apply (block_shape d dd d dd); assumption.
  - intros i j Hi Hj. rewrite vstack_entry_top by lia.
    by apply (hstack_entry_left d d dd).
  - intros i j Hi Hj. rewrite vstack_entry_bottom by lia. rewrite Hlt.
    rewrite (hstack_entry_right dd d dd) by (assumption || lia).
    apply np_eye_scaled_entry; lia.
  - intros i j Hi Hj. rewrite vstack_entry_top by lia.
    rewrite (hstack_entry_right d d dd) by (assumption || lia).
    apply np_zeros_entry; lia.
  - intros i j Hi Hj. rewrite vstack_entry_bottom by lia. rewrite Hlt.
    rewrite (hstack_entry_left dd d dd) by (assumption || lia).
    apply np_zeros_entry; lia.
Qed.

Lemma lower_block_form padding matrix d dd :
  has_shape d d matrix →
  embedded_lower padding matrix d (dd + d)
    (zip_with app (np_scale (np_eye dd) padding) (np_zeros dd d) ++
     zip_with app (np_zeros d dd) matrix).
Proof.
  intros Hm.
  pose proof (np_zeros_shape (C := C) dd d) as Hz1.
  pose proof (np_zeros_shape (C := C) d dd) as Hz2.
  pose proof (np_eye_scaled_shape dd padding) as He.
  pose proof (zip_with_app_shape _ _ _ _ _ He Hz1) as [Hlt _].
  replace (dd + d - d) with dd by lia.
  repeat split.
  - apply (block_shape dd d dd d); assumption.
  - apply (block_shape dd d dd d); assumption.
  - intros i j Hi Hj. rewrite vstack_entry_bottom by lia. rewrite Hlt.
    rewrite (hstack_entry_right d dd d) by (assumption || lia).
    f_equal; lia.
  - intros i j Hi Hj. rewrite vstack_entry_top by lia.
    rewrite (hstack_entry_left dd dd d) by (assumption || lia).
    apply np_eye_scaled_entry; lia.
  - intros i j Hi Hj. rewrite vstack_entry_top by lia.
    rewrite (hstack_entry_right dd dd d) by (assumption || lia).
    apply np_zeros_entry; lia.
  - intros i j Hi Hj. rewrite vstack_entry_bottom by lia. rewrite Hlt.
    rewrite (hstack_entry_left d dd d) by (assumption || lia).
    apply np_zeros_entry; lia.
Qed.

(** The padded branch: the blocks fit, so [np.block] returns. *)
Lemma embed_matrix_padded matrix num_qubits h location d :
  (0 ≤ num_qubits)%Z → has_shape d d matrix → (2 ^ num_qubits - Z.of_nat d > 0)%Z →
  _location (self h) = Member location →
  let dd := Z.to_nat (2 ^ num_qubits - Z.of_nat d) in
  let padded := np_scale (np_eye dd) (_padding (self h)) in
  _embed_matrix matrix num_qubits h =
    (Ok match location with
        | UPPER => zip_with app matrix (np_zeros d dd) ++ zip_with app (np_zeros dd d) padded
        | LOWER => zip_with app padded (np_zeros dd d) ++ zip_with app (np_zeros d dd) matrix
        end, h).
Proof.
  intros Hn Hm Hdiff Hloc dd padded. rewrite (embed_matrix_branches _ _ _ Hn).
  assert (Hlen : length matrix = d) by apply Hm. unfold shape0. rewrite Hlen.
  fold dd. fold padded.
  destruct (Z.eqb_spec (2 ^ num_qubits - Z.of_nat d) 0) as [|_]; [lia |].
  destruct (Z.gtb_spec (2 ^ num_qubits - Z.of_nat d) 0) as [_|]; [| lia].
  rewrite Hloc.
  pose proof (np_zeros_shape (C := C) d dd) as Hz1.
  pose proof (np_zeros_shape (C := C) dd d) as Hz2.
  pose proof (np_eye_scaled_shape dd (_padding (self h))) as He.
  destruct location.
  - by rewrite (np_block_ok d dd d dd).
  - by rewrite (np_block_ok dd d dd d).
Qed.

(** A square matrix that fits is embedded and returned. *)
Lemma embed_matrix_returns matrix num_qubits h d :
  (0 ≤ num_qubits)%Z → has_shape d d matrix → (Z.of_nat d ≤ 2 ^ num_qubits)%Z →
  (∃ location, _location (self h) = Member location) →
  ∃ full, _embed_matrix matrix num_qubits h = (Ok full, h).
Proof.
  intros Hn Hsq Hfit [location Hloc].
  assert (Hlen : length matrix = d) by apply Hsq.
  destruct (Z.eq_dec (Z.of_nat d) (2 ^ num_qubits)) as [Heq | Hne].
  - exists matrix. rewrite (embed_matrix_branches _ _ _ Hn). unfold shape0.
    by rewrite Hlen, Heq, Z.sub_diag.
  - eexists. apply (embed_matrix_padded matrix num_qubits h location d); [done .. | lia | done].
Qed.

(** C3: for a d-by-d matrix, a register with 2^num_qubits - d > 0 and a
    configuration (padding, location), [_embed_matrix] returns a matrix of
    dimension 2^num_qubits in block form: the input matrix in the upper-left
    block for UPPER and in the lower-right block for LOWER, padding times the
    identity in the other diagonal block, and zero in every entry of the two
    cross blocks.  The heap is left as it was. *)
Theorem embed_matrix_block_diagonal matrix num_qubits h location d :
  (0 ≤ num_qubits)%Z → has_shape d d matrix → (2 ^ num_qubits - Z.of_nat d > 0)%Z →
  _location (self h) = Member location →
  ∃ full, _embed_matrix matrix num_qubits h = (Ok full, h) ∧
          block_embedded location (_padding (self h)) matrix d
            (Z.to_nat (2 ^ num_qubits)) full.
Proof.
  intros Hn Hm Hdiff Hloc.
  rewrite (embed_matrix_padded matrix num_qubits h location d Hn Hm Hdiff Hloc).
  set (dd := Z.to_nat (2 ^ num_qubits - Z.of_nat d)).
  eexists; split; [reflexivity |].
  destruct location; simpl.
  - replace (Z.to_nat (2 ^ num_qubits)) with (d + dd) by (subst dd; lia).
    by apply upper_block_form.
  - replace (Z.to_nat (2 ^ num_qubits)) with (dd + d) by (subst dd; lia).
    by apply lower_block_form.
Qed.

(** C5: when the dimension of the matrix equals 2^num_qubits, [_embed_matrix]
    returns the matrix itself, whatever padding and location the mapper
    holds (also a location outside the enumeration). *)
Theorem embed_matrix_exact_fit matrix num_qubits h :
  (0 ≤ num_qubits)%Z → shape0 matrix = (2 ^ num_qubits)%Z →
  _embed_matrix matrix num_qubits h = (Ok matrix, h).
Proof.
  intros Hn Hfit. rewrite (embed_matrix_branches _ _ _ Hn), Hfit.
  by rewrite Z.sub_diag.
Qed.

(** C6: [_embed_matrix] raises the does-not-fit error exactly when the
    dimension of the matrix exceeds 2^num_qubits; a square matrix that fits
    is embedded and returned, for every location of the enumeration. *)
Theorem embed_matrix_dimension_error matrix num_qubits h :
  (0 ≤ num_qubits)%Z →
  (is_dimension_error (_embed_matrix matrix num_qubits h).1 ↔
     (2 ^ num_qubits < shape0 matrix)%Z) ∧
  ((shape0 matrix ≤ 2 ^ num_qubits)%Z →
   has_shape (length matrix) (length matrix) matrix →
   (∃ location, _location (self h) = Member location) →
   ∃ full, _embed_matrix matrix num_qubits h = (Ok full, h)).
Proof.
  intros Hn. split.
  - rewrite (embed_matrix_branches _ _ _ Hn). simpl. unfold is_dimension_error.
    destruct (Z.eqb_spec (2 ^ num_qubits - shape0 matrix) 0).
    { split; [intros [k Hk]; discriminate | lia]. }
    destruct (Z.gtb_spec (2 ^ num_qubits - shape0 matrix) 0).
    + split; [| lia]. intros [k Hk]. revert Hk.
      destruct (_location (self h)) as [[] |]; unfold np_block, hstack, vstack;
        repeat (case_match; simpl); intros; simplify_eq.
    + split; [lia | eauto].
  - intros Hfit Hsq Hloc. by eapply embed_matrix_returns.
Qed.
End EmbedMatrix.

(** ** The operator of a mode and of a term *)

Section TermComposer.
Context {C Op : Type} {algebra : OpAlgebra C Op}.
Implicit Types (Xq Yq Zq Iq : Op) (a b c : nat) (n : Z * Z * Z).

Import LogarithmicMapper.

Lemma foldl_replicate (f : Op → Op → Op) (x : Op) k :
  foldl f x (replicate (S k) x) = f (foldl f x (replicate k x)) x.
Proof. by rewrite replicate_S_end, foldl_app. Qed.

Lemma reduce_replicate Xq k :
  reduce op_matmul (replicate (S k) Xq) = Ok (composed_times Xq (S k)).
Proof.
  unfold reduce. simpl replicate. f_equal.
  induction k as [|k IH]; [done |].
  rewrite foldl_replicate, IH. done.
Qed.

(** one [if n > 0: append(reduce(matmul, [op] * int(n)))] step *)
Lemma append_power (l : list Op) Xq (n : Z) :
  (if (n >? 0)%Z
   then p ← reduce op_matmul (replicate (Z.to_nat n) Xq); mret (l ++ [p])
   else mret l)
  = Ok (match Z.to_nat n with 0 => l | S _ => l ++ [composed_times Xq (Z.to_nat n)] end).
Proof.
  destruct (Z.gtb_spec n 0) as [Hpos | Hle].
  - destruct (Z.to_nat n) as [|k] eqn:Hk; [lia |]. by rewrite reduce_replicate.
  - by replace (Z.to_nat n) with 0 by lia.
Qed.

(** Exponents that are not positive count as zero. *)
Lemma operator_on_spin_i_local Xq Yq Zq Iq n :
  operator_on_spin_i Xq Yq Zq Iq n = Ok (local_operator_of Xq Yq Zq Iq n).
Proof.
  destruct n as [[n_x n_y] n_z]. unfold operator_on_spin_i, local_operator_of.
  rewrite (append_power [] Xq n_x). cbn [mbind result_bind].
  rewrite (append_power _ Yq n_y). cbn [mbind result_bind].
  rewrite (append_power _ Zq n_z). cbn [mbind result_bind fst snd].
  by destruct (Z.to_nat n_x), (Z.to_nat n_y), (Z.to_nat n_z).
Qed.

(** C1: for exponents a, b, c of a mode, the local operator built by [map]
    is the encoded identity when a = b = c = 0, and otherwise the
    composition (by [@], not by the tensor) of Xq composed a times, then Yq
    composed b times, then Zq composed c times, the factors with exponent
    zero left out. *)
Theorem local_operator_composition Xq Yq Zq Iq a b c :
  operator_on_spin_i Xq Yq Zq Iq (Z.of_nat a, Z.of_nat b, Z.of_nat c)
  = Ok (local_operator Xq Yq Zq Iq a b c).
Proof.
  unfold operator_on_spin_i.
  rewrite (append_power [] Xq (Z.of_nat a)). cbn [mbind result_bind].
  rewrite (append_power _ Yq (Z.of_nat b)). cbn [mbind result_bind].
  rewrite (append_power _ Zq (Z.of_nat c)). cbn [mbind result_bind].
  rewrite !Nat2Z.id.
  destruct a as [|a]; destruct b as [|b]; destruct c as [|c]; reflexivity.
Qed.

Lemma mapM_operator_on_spin_i Xq Yq Zq Iq (zipped : list (Z * Z * Z)) :
  mapM (operator_on_spin_i Xq Yq Zq Iq) zipped
  = Ok (local_operator_of Xq Yq Zq Iq <$> zipped).
Proof.
  induction zipped as [|n zipped IH]; [done |].
  simpl. rewrite operator_on_spin_i_local. cbn [mbind result_bind].
  rewrite IH. done.
Qed.

Lemma reduce_tensor_reverse (d : Op) (locals : list Op) :
  locals ≠ [] → reduce op_tensor (reverse locals) = Ok (tensored_reversed d locals).
Proof.
  induction locals as [|l rest IH]; [done |]. intros _.
  destruct rest as [|l' rest]; [done |].
  rewrite reverse_cons.
  specialize (IH ltac:(done)).
  destruct (reverse (l' :: rest)) as [|r rs] eqn:E; [discriminate IH |].
  simpl in *. rewrite foldl_app. simpl. injection IH as ->. done.
Qed.

Lemma term_operator_no_modes Xq Yq Zq Iq (coeff : C) :
  term_operator Xq Yq Zq Iq coeff [] = Err TypeError_reduce_empty.
Proof. done. Qed.

(** C2: for a term with at least one mode, the operator [map] builds for
    the term is the coefficient times the tensor product of the per-mode
    local operators taken in reverse mode order, the last mode leftmost. *)
Theorem term_operator_reverse_tensor Xq Yq Zq Iq (coeff : C) (zipped : list (Z * Z * Z)) :
  zipped ≠ [] →
  term_operator Xq Yq Zq Iq coeff zipped
  = Ok (op_smul coeff (tensored_reversed Iq (local_operator_of Xq Yq Zq Iq <$> zipped))).
Proof.
  intros Hne. unfold term_operator.
  rewrite mapM_operator_on_spin_i. cbn [mbind result_bind].
  rewrite (reduce_tensor_reverse Iq); [done |].
  by destruct zipped.
Qed.
End TermComposer.

(** ** Method bodies that only read *)

Section ReadOnly.
Context {C : Type}.
Implicit Types (h : heap C).

Lemma read_only_run {A} (m : M C A) h : read_only m → m h = ((m h).1, h).
Proof. intros Hm. specialize (Hm h). destruct (m h). simpl in *. by subst. Qed.

Lemma bind_run {A B} (m : M C A) (f : A → M C B) h :
  read_only m →
  (m ≫= f) h = match (m h).1 with Ok a => f a h | Err e => (Err e, h) end.
Proof.
  intros Hm. unfold mbind, M_bind. rewrite (read_only_run m h Hm). simpl.
  by destruct (m h).1.
Qed.

Lemma read_only_ret {A} (a : A) : read_only (C := C) (mret a).
Proof. done. Qed.
Lemma read_only_lift {A} (r : result A) : read_only (C := C) (lift r).
Proof. done. Qed.
Lemma read_only_raise {A} e : read_only (C := C) (A := A) (raise e).
Proof. done. Qed.
Lemma read_only_read {A} (f : heap C → A) : read_only (read f).
Proof. done. Qed.

Lemma read_only_bind {A B} (m : M C A) (f : A → M C B) :
  read_only m → (∀ a, read_only (f a)) → read_only (m ≫= f).
Proof.
  intros Hm Hf h. rewrite (bind_run m f h Hm).
  destruct (m h).1; [apply Hf | done].
Qed.

Lemma read_only_mapM {A B} (f : A → M C B) (l : list A) :
  (∀ a, read_only (f a)) → read_only (mapM f l).
Proof.
  intros Hf. induction l as [|a l IH]; [done |]. simpl.
  apply read_only_bind; [done |]. intros b.
  apply read_only_bind; [done |]. intros bs. apply read_only_ret.
Qed.

Lemma mapM_cons_run {A B} (f : A → M C B) (a : A) (l : list A) h :
  (∀ a, read_only (f a)) →
  mapM f (a :: l) h =
    match (f a h).1 with
    | Ok y => match (mapM f l h).1 with
              | Ok k => (Ok (y :: k), h)
              | Err e => (Err e, h)
              end
    | Err e => (Err e, h)
    end.
Proof.
  intros Hf. simpl. rewrite bind_run by done.
  destruct (f a h).1; [| done].
  rewrite bind_run by by apply read_only_mapM.
  by destruct (mapM f l h).1.
Qed.

Lemma self_only_ret {A} (a : A) : reads_self_only (C := C) (mret a).
Proof. done. Qed.
Lemma self_only_lift {A} (r : result A) : reads_self_only (C := C) (lift r).
Proof. done. Qed.
Lemma self_only_raise {A} e : reads_self_only (C := C) (A := A) (raise e).
Proof. done. Qed.
Lemma self_only_read {A} (f : mapper_object C → A) :
  reads_self_only (read (λ h, f (self h))).
Proof. intros h h' Hself. unfold read. simpl. by rewrite Hself. Qed.

Lemma self_only_bind {A B} (m : M C A) (f : A → M C B) :
  read_only m → reads_self_only m → (∀ a, reads_self_only (f a)) →
  reads_self_only (m ≫= f).
Proof.
  intros Hro Hm Hf h h' Hself.
  rewrite !(bind_run m f _ Hro), (Hm h h' Hself).
  destruct (m h').1; [by apply Hf | done].
Qed.
End ReadOnly.

Create HintDb read_only.
#[global] Hint Resolve read_only_ret read_only_lift read_only_raise read_only_read
  read_only_bind read_only_mapM : read_only.
#[global] Hint Resolve self_only_ret self_only_lift self_only_raise self_only_read
  self_only_bind : read_only.

(** ** [_logarithmic_encoding] *)

Section Encoding.
Context {C Op : Type} {scalar : Scalar C} {algebra : OpAlgebra C Op} {provider : SpinMatrices C}.
Implicit Types (h : heap C) (spin : Q).

Import LogarithmicMapper.

Lemma embed_matrix_read_only (matrix : ndarray C) num_qubits :
  read_only (_embed_matrix matrix num_qubits).
Proof.
  unfold _embed_matrix. apply read_only_bind; [auto with read_only |]. intros full_dim.
  repeat case_match; auto with read_only.
  all: apply read_only_bind; [auto with read_only |]; intros loc.
  all: repeat case_match; auto 6 with read_only.
Qed.

Lemma embed_matrix_self_only (matrix : ndarray C) num_qubits :
  reads_self_only (_embed_matrix matrix num_qubits).
Proof.
  unfold _embed_matrix. apply self_only_bind; [auto with read_only .. |]. intros full_dim.
  repeat case_match; auto with read_only.
  all: apply self_only_bind;
    [auto with read_only | apply (self_only_read _location) |]; intros loc.
  all: repeat case_match; auto with read_only.
  all: apply self_only_bind;
    [auto with read_only | apply (self_only_read _padding) |]; intros p.
  all: auto with read_only.
Qed.

Lemma encoding_read_only spin : read_only (_logarithmic_encoding (Op := Op) spin).
Proof.
  unfold _logarithmic_encoding.
  repeat (apply read_only_bind;
          [auto using embed_matrix_read_only with read_only |]; intros ?).
  auto with read_only.
Qed.

Lemma encoding_self_only spin : reads_self_only (_logarithmic_encoding (Op := Op) spin).
Proof.
  unfold _logarithmic_encoding.
  repeat (apply self_only_bind;
          [auto using embed_matrix_read_only with read_only
          |auto using embed_matrix_self_only with read_only |]; intros ?).
  auto with read_only.
Qed.

(** *** The dimension and the number of qubits *)

Lemma int_of_fraction_integer (q : Q) (k : Z) :
  (q == inject_Z k)%Q → int_of_fraction q = k.
Proof.
  unfold int_of_fraction, Qeq, inject_Z. simpl. intros Hq.
  rewrite Z.mul_1_r in Hq. rewrite Hq. by apply Z.quot_mul.
Qed.

Lemma dspin_of_half_integer spin (k : Z) :
  (2 * spin == inject_Z k)%Q → dspin_of spin = (k + 1)%Z.
Proof.
  intros Hk. unfold dspin_of. apply int_of_fraction_integer.
  rewrite Hk, inject_Z_plus. reflexivity.
Qed.

(** In the int64 and uint64 range [np.log2] gives a float. *)
Lemma np_log2_in_range (d : Z) :
  (- 2 ^ 63 ≤ d < 2 ^ 64)%Z →
  np_log2 d = if (d <? 0)%Z then Ok f_nan
              else if (d =? 0)%Z then Ok f_neg_inf
              else Ok (float64_log2 (float64_of_int d)).
Proof.
  intros [Hlo Hhi]. unfold np_log2.
  destruct (Z.ltb_spec d (- 2 ^ 63)); [lia |].
  destruct (Z.leb_spec (2 ^ 64) d); [lia | done].
Qed.

(** Up to 2^49 the float64 computation of line 132 is the exact one: the
    rounded logarithm is an integer only at a power of two, or else rounds up
    to the next integer, which the ceiling reaches anyway. *)
Lemma float64_log2_ceil_small (d : Z) :
  (1 ≤ d ≤ 2 ^ 49)%Z →
  np_ceil (float64_log2 (float64_of_int d)) =
    f_real (if (d =? 2 ^ Z.log2 d)%Z then Z.log2 d else Z.log2 d + 1) true.
Proof.
  intros [Hd1 Hd49].
  assert (Hk49 : (Z.log2 d ≤ 49)%Z).
  { rewrite <- (Z.log2_pow2 49) by lia. by apply Z.log2_le_mono. }
  destruct (Z.log2_spec d) as [Hlo Hhi]; [lia |].
  pose proof (Z.log2_nonneg d) as Hk0.
  unfold float64_of_int.
  destruct (Z.leb_spec (Z.log2 d) 52) as [_|]; [| lia].
  unfold float64_log2.
  destruct (Z.eqb_spec d (2 ^ Z.log2 d)) as [Heq | Hne].
  - replace (d - 2 ^ Z.log2 d)%Z with 0%Z by lia. done.
  - destruct (Z.eqb_spec (d - 2 ^ Z.log2 d) 0) as [| _]; [lia |].
    set (k := Z.log2 d) in *.
    assert (Hk48 : (k ≤ 48)%Z).
    { destruct (Z.eq_dec k 49) as [Hk |]; [| lia]. rewrite Hk in *. lia. }
    assert (He : (Z.log2 k ≤ 5)%Z).
    { change 5%Z with (Z.log2 48). by apply Z.log2_le_mono. }
    assert (Hpow : (2 ^ k ≤ 2 ^ (53 - Z.log2 k))%Z)
      by (apply Z.pow_le_mono_r; lia).
    assert (Hpos : (0 < 2 ^ k)%Z) by (apply Z.pow_pos_nonneg; lia).
    replace (_ <? ln2_num * 2 ^ k)%Z with false.
    + by destruct (_ <? ln2_num * d)%Z.
    + symmetry. apply Z.ltb_ge. unfold ln2_num, ln2_den.
      set (A := (2 ^ (53 - Z.log2 k))%Z) in *. set (B := (2 ^ k)%Z) in *.
      assert (B ≤ (d - B) * A)%Z by nia. lia.
Qed.

(** [int(np.ceil(np.log2(d)))] for a dimension [d] from 1 to 2^49 *)
Lemma ceil_log2_minimal (d : Z) :
  (1 ≤ d ≤ 2 ^ 49)%Z →
  ∃ n, (log ← np_log2 d; int_of_float (np_ceil log)) = Ok n ∧ (0 ≤ n)%Z ∧ (d ≤ 2 ^ n)%Z ∧
       ∀ m, (0 ≤ m)%Z → (d ≤ 2 ^ m)%Z → (n ≤ m)%Z.
Proof.
  intros Hd. rewrite np_log2_in_range by lia.
  destruct (Z.ltb_spec d 0); [lia |]. destruct (Z.eqb_spec d 0); [lia |].
  cbn [mbind result_bind]. rewrite (float64_log2_ceil_small d Hd).
  pose proof (Z.log2_nonneg d) as Hlog.
  destruct (Z.log2_spec d) as [Hlo Hhi]; [lia |].
  destruct (Z.eqb_spec d (2 ^ Z.log2 d)) as [Hexact | Hinexact]; simpl.
  - exists (Z.log2 d). repeat split; [done | lia |].
    intros m Hm Hdm. apply (Z.pow_le_mono_r_iff 2); lia.
  - exists (Z.log2 d + 1)%Z. repeat split; [lia | unfold Z.succ in Hhi; lia |].
    intros m Hm Hdm.
    destruct (Z.le_gt_cases m (Z.log2 d)) as [Hle | ]; [| lia].
    pose proof (Z.pow_le_mono_r 2 m (Z.log2 d) ltac:(lia) Hle). lia.
Qed.

(** In the int64 and uint64 range the number of qubits is computed for every
    dimension of at least one. *)
Lemma num_qubits_returns spin :
  (1 ≤ dspin_of spin < 2 ^ 64)%Z → ∃ n, num_qubits_of spin = Ok n.
Proof.
  intros Hd. unfold num_qubits_of. rewrite np_log2_in_range by lia.
  destruct (Z.ltb_spec (dspin_of spin) 0); [lia |].
  destruct (Z.eqb_spec (dspin_of spin) 0); [lia |].
  cbn [mbind result_bind]. unfold float64_log2.
  repeat case_match; simpl; eauto.
Qed.

(** *** What the encoding does, by the truncated dimension *)

Lemma encoding_dimension_zero spin h :
  dspin_of spin = 0%Z →
  _logarithmic_encoding (Op := Op) spin h = (Err OverflowError_inf_to_int, h).
Proof.
  intros Hd. unfold _logarithmic_encoding, num_qubits_of. by rewrite Hd.
Qed.

Lemma encoding_dimension_negative spin h :
  (- 2 ^ 63 ≤ dspin_of spin < 0)%Z →
  _logarithmic_encoding (Op := Op) spin h = (Err ValueError_nan_to_int, h).
Proof.
  intros Hd. unfold _logarithmic_encoding, num_qubits_of.
  rewrite np_log2_in_range by lia.
  destruct (Z.ltb_spec (dspin_of spin) 0); [done | lia].
Qed.

Lemma encoding_dimension_object spin h :
  (dspin_of spin < - 2 ^ 63 ∨ 2 ^ 64 ≤ dspin_of spin)%Z →
  _logarithmic_encoding (Op := Op) spin h = (Err TypeError_log2_object, h).
Proof.
  intros Hd. unfold _logarithmic_encoding, num_qubits_of, np_log2.
  destruct (Z.ltb_spec (dspin_of spin) (- 2 ^ 63)); [done |].
  destruct (Z.leb_spec (2 ^ 64) (dspin_of spin)); [done | lia].
Qed.

(** Once the number of qubits is there, the spin matrices are asked for in
    the order X, Y, Z, and the first exception of the provider is the
    exception of the encoding. *)
Lemma encoding_provider_raises spin h n e :
  num_qubits_of spin = Ok n →
  (spin_to_matrix sym_X spin = Err e ∨
   (∃ mx, spin_to_matrix sym_X spin = Ok mx) ∧
   (spin_to_matrix sym_Y spin = Err e ∨
    (∃ my, spin_to_matrix sym_Y spin = Ok my) ∧ spin_to_matrix sym_Z spin = Err e)) →
  _logarithmic_encoding (Op := Op) spin h = (Err e, h).
Proof.
  intros Hn Hraise. unfold _logarithmic_encoding, mbind, M_bind, lift. rewrite Hn.
  destruct Hraise as [Hx | [[mx Hx] [Hy | [[my Hy] Hz]]]].
  - by rewrite Hx.
  - by rewrite Hx, Hy.
  - by rewrite Hx, Hy, Hz.
Qed.

Lemma np_eye_shape (d : nat) : has_shape d d (np_eye (C := C) d).
Proof.
  unfold np_eye. split.
  - by rewrite length_fmap, length_seq.
  - rewrite Forall_fmap. apply Forall_forall. intros i _. simpl.
    by rewrite length_fmap, length_seq.
Qed.

(** C4, as the code has it: for a spin S = k/2 with k a non-negative integer
    and a dimension 2S + 1 = k + 1 of at most 2^49, the number of qubits the
    encoding uses is the smallest n with 2^n >= 2S + 1, that is the ceiling
    of log2(2S + 1).  (Beyond 2^49 the float64 logarithm of line 132 can
    round down to an integer.) *)
Theorem num_qubits_minimal spin (k : Z) :
  (0 ≤ k)%Z → (2 * spin == inject_Z k)%Q → (k + 1 ≤ 2 ^ 49)%Z →
  dspin_of spin = (k + 1)%Z ∧
  ∃ n, num_qubits_of spin = Ok n ∧ (0 ≤ n)%Z ∧ (k + 1 ≤ 2 ^ n)%Z ∧
       ∀ m, (0 ≤ m)%Z → (k + 1 ≤ 2 ^ m)%Z → (n ≤ m)%Z.
Proof.
  intros Hk Hspin Hbound. pose proof (dspin_of_half_integer _ _ Hspin) as Hd.
  split; [done |]. unfold num_qubits_of. rewrite Hd.
  apply ceil_log2_minimal. lia.
Qed.

(** C7, as the code has it: the encoding has no check of the spin.  It
    truncates 2 spin + 1 to the dimension d and computes the number of qubits
    from d: for d = 0 it raises the OverflowError of int(-inf), for d < 0 (in
    the int64 range) the ValueError of int(nan), and outside the int64 and
    uint64 range the TypeError of np.log2, all before a spin matrix is asked
    for.  For any other d the number of qubits is computed, the spin matrices
    are asked for with the spin as it is, and the first exception the
    provider raises (for X, else Y, else Z) is the exception of the
    encoding. *)
Theorem encoding_without_spin_check spin h :
  (dspin_of spin = 0%Z →
   _logarithmic_encoding (Op := Op) spin h = (Err OverflowError_inf_to_int, h)) ∧
  ((- 2 ^ 63 ≤ dspin_of spin < 0)%Z →
   _logarithmic_encoding (Op := Op) spin h = (Err ValueError_nan_to_int, h)) ∧
  ((dspin_of spin < - 2 ^ 63 ∨ 2 ^ 64 ≤ dspin_of spin)%Z →
   _logarithmic_encoding (Op := Op) spin h = (Err TypeError_log2_object, h)) ∧
  ((1 ≤ dspin_of spin < 2 ^ 64)%Z →
   (∃ n, num_qubits_of spin = Ok n) ∧
   ∀ e,
     (spin_to_matrix sym_X spin = Err e ∨
      (∃ mx, spin_to_matrix sym_X spin = Ok mx) ∧
      (spin_to_matrix sym_Y spin = Err e ∨
       (∃ my, spin_to_matrix sym_Y spin = Ok my) ∧ spin_to_matrix sym_Z spin = Err e)) →
     _logarithmic_encoding (Op := Op) spin h = (Err e, h)).
Proof.
  split_and!.
  - apply encoding_dimension_zero.
  - apply encoding_dimension_negative.
  - apply encoding_dimension_object.
  - intros Hd. destruct (num_qubits_returns spin Hd) as [n Hn].
    split; [by exists n |]. intros e. by apply (encoding_provider_raises spin h n).
Qed.
End Encoding.

(** ** [map] *)

Section Map.
Context {C Op : Type} {scalar : Scalar C} {algebra : OpAlgebra C Op} {provider : SpinMatrices C}.
Implicit Types (h : heap C) (tm : SpinOp.term C) (Xq Yq Zq Iq : Op).

Import LogarithmicMapper.

Lemma zip3_exponents (es : list (Z * Z * Z)) :
  zip3 ((λ e : Z * Z * Z, e.1.1) <$> es) ((λ e : Z * Z * Z, e.1.2) <$> es)
       ((λ e : Z * Z * Z, e.2) <$> es) = es.
Proof.
  induction es as [|[[n_x n_y] n_z] es IH]; [done |]. simpl. f_equal. apply IH.
Qed.

Lemma index_fmap {A B} (f : A → B) (pre : list A) (a : A) (post : list A) :
  index (f <$> (pre ++ a :: post)) (length pre) = Ok (f a).
Proof. unfold index. by rewrite list_lookup_fmap, list_lookup_middle. Qed.

(** One pass of the loop reads the exponents of its term. *)
Lemma map_term_run Xq Yq Zq Iq h pre tm post :
  SpinOp.terms (second_q_op h) = pre ++ tm :: post →
  map_term Xq Yq Zq Iq (length pre, (SpinOp.label tm, SpinOp.coeff tm)) h
  = (term_operator Xq Yq Zq Iq (SpinOp.coeff tm) (SpinOp.exponents tm), h).
Proof.
  intros Hterms. unfold map_term, mbind, M_bind, read, lift.
  unfold SpinOp.x, SpinOp.y, SpinOp.z. rewrite Hterms, !index_fmap.
  by rewrite zip3_exponents.
Qed.

Lemma map_term_read_only Xq Yq Zq Iq item : read_only (map_term Xq Yq Zq Iq item).
Proof.
  destruct item as [idx [lbl coeff]]. unfold map_term.
  repeat (apply read_only_bind; [auto with read_only |]; intros ?).
  auto with read_only.
Qed.

(** The loop over the terms, started at index [length pre] *)
Lemma map_loop_run Xq Yq Zq Iq h pre ts :
  SpinOp.terms (second_q_op h) = pre ++ ts →
  mapM (map_term Xq Yq Zq Iq)
       (zip (seq (length pre) (length ts))
            ((λ tm, (SpinOp.label tm, SpinOp.coeff tm)) <$> ts)) h
  = (mapM (λ tm, term_operator Xq Yq Zq Iq (SpinOp.coeff tm) (SpinOp.exponents tm)) ts, h).
Proof.
  revert pre. induction ts as [|tm ts IH]; intros pre Hterms; [done |].
  change (zip (seq (length pre) (length (tm :: ts)))
              ((λ tm, (SpinOp.label tm, SpinOp.coeff tm)) <$> tm :: ts))
    with ((length pre, (SpinOp.label tm, SpinOp.coeff tm)) ::
          zip (seq (S (length pre)) (length ts))
              ((λ tm, (SpinOp.label tm, SpinOp.coeff tm)) <$> ts)).
  rewrite mapM_cons_run by apply map_term_read_only.
  rewrite (map_term_run _ _ _ _ _ _ _ _ Hterms).
  specialize (IH (pre ++ [tm])). rewrite length_app, Nat.add_1_r in IH.
  rewrite IH by by rewrite <- app_assoc. simpl.
  destruct (term_operator _ _ _ _ _ _) as [q|e]; [| done]. simpl.
  by destruct (mapM _ ts).
Qed.

(** [map] in one equation: the encoding, then the operators of the terms
    in order, then their sum. *)
Lemma map_run h :
  map h =
    (encoding ← (_logarithmic_encoding (SpinOp.spin (second_q_op h)) h).1;
     let '(Xq, Yq, Zq, Iq) := encoding in
     qubit_ops_list ←
       mapM (λ tm, term_operator Xq Yq Zq Iq (SpinOp.coeff tm) (SpinOp.exponents tm))
            (SpinOp.terms (second_q_op h));
     reduce op_add qubit_ops_list, h).
Proof.
  unfold map. rewrite bind_run by apply read_only_read. simpl.
  rewrite bind_run by apply encoding_read_only.
  destruct (_logarithmic_encoding _ h).1 as [[[[Xq Yq] Zq] Iq]|e]; [| done].
  rewrite bind_run by apply read_only_read. simpl.
  rewrite bind_run by (apply read_only_mapM, map_term_read_only).
  unfold SpinOp.to_list. rewrite length_fmap.
  rewrite (map_loop_run Xq Yq Zq Iq h []) by done. simpl.
  by destruct (mapM _ _).
Qed.

Lemma map_read_only : read_only (map (Op := Op)).
Proof. intros h. by rewrite map_run. Qed.
End Map.

Section MapClaims.
Context {C Op : Type} {scalar : Scalar C} {algebra : OpAlgebra C Op}
        {provider : SpinMatrices C}.
Implicit Types (h : heap C) (tm : SpinOp.term C).

Import LogarithmicMapper.

(** C8: mapping an operator with two terms gives the sum (by [+] of the
    operator algebra) of what mapping each of the two single-term operators
    of the same spin gives; an exception of the first or else of the second
    single-term run is the exception of the two-term run. *)
Theorem map_additive (mapper : mapper_object C) (spin : Q) tm1 tm2 :
  (map (Heap mapper (SpinOp.Make spin [tm1; tm2]))).1 =
  (q1 ← (map (Heap mapper (SpinOp.Make spin [tm1]))).1;
   q2 ← (map (Heap mapper (SpinOp.Make spin [tm2]))).1;
   mret (op_add q1 q2)).
Proof.
  rewrite !map_run. simpl.
  set (h := Heap mapper (SpinOp.Make spin [tm1; tm2])).
  rewrite (encoding_self_only spin (Heap mapper (SpinOp.Make spin [tm1])) h) by done.
  rewrite (encoding_self_only spin (Heap mapper (SpinOp.Make spin [tm2])) h) by done.
  destruct (_logarithmic_encoding spin h).1 as [[[[Xq Yq] Zq] Iq]|e]; [| done].
  simpl.
  destruct (term_operator Xq Yq Zq Iq (SpinOp.coeff tm1) _) as [q1|e1]; [| done].
  simpl.
  by destruct (term_operator Xq Yq Zq Iq (SpinOp.coeff tm2) _) as [q2|e2].
Qed.

(** C10: for an operator without terms [map] returns no operator; once the
    basis encoding has succeeded it raises the TypeError of [reduce] on an
    empty sequence, and when the encoding raises, that exception. *)
Theorem map_empty_operator h :
  SpinOp.terms (second_q_op h) = [] →
  (∀ q : Op, (map h).1 ≠ Ok q) ∧
  (∀ encoding, (_logarithmic_encoding (Op := Op) (SpinOp.spin (second_q_op h)) h).1
               = Ok encoding →
               map (Op := Op) h = (Err TypeError_reduce_empty, h)) ∧
  (∀ e, (_logarithmic_encoding (Op := Op) (SpinOp.spin (second_q_op h)) h).1 = Err e →
        map (Op := Op) h = (Err e, h)).
Proof.
  intros Hterms. rewrite map_run, Hterms.
  destruct (_logarithmic_encoding _ h).1 as [[[[Xq Yq] Zq] Iq]|e]; simpl.
  - split_and!; [done | done | intros e He; discriminate].
  - split_and!; [done | intros ? ?; discriminate | intros e' He; by simplify_eq].
Qed.
End MapClaims.

(** ** The mapper run on matrices of Gaussian rationals *)

Module Runs.
Import Gaussian LogarithmicMapper.

(** The encoding of spin 1/2 needs no padding: one qubit, the matrices as
    they are. *)
Example encoding_spin_half :
  (_logarithmic_encoding (provider := checked_provider) (1 # 2) (heap_of no_terms)).1
  = Ok (spin_half sym_X, spin_half sym_Y, spin_half sym_Z, [[c1; c0]; [c0; c1]]).
Proof. reflexivity. Qed.

(** An x-exponent of two is the matrix product of the encoded X with
    itself, which differs from its element-wise square. *)
Example x_squared_is_composition :
  let Xq := spin_half sym_X in
  operator_on_spin_i Xq (spin_half sym_Y) (spin_half sym_Z) (np_eye 2) (2, 0, 0)%Z
    = Ok (mat_mul Xq Xq)
  ∧ mat_mul Xq Xq ≠ mat_hadamard Xq Xq.
Proof. split; [reflexivity | discriminate]. Qed.

(** The last mode is the leftmost tensor factor: [X_0 Y_1] is [Y ⊗ X]. *)
Example term_xy_is_y_tensor_x :
  term_operator (spin_half sym_X) (spin_half sym_Y) (spin_half sym_Z) (np_eye 2)
    c1 (SpinOp.exponents term_xy)
    = Ok (mat_scale c1 (kron (spin_half sym_Y) (spin_half sym_X)))
  ∧ kron (spin_half sym_Y) (spin_half sym_X) ≠ kron (spin_half sym_X) (spin_half sym_Y).
Proof. split; [reflexivity | discriminate]. Qed.

Example map_two_terms :
  (map (provider := checked_provider) (heap_of two_terms)).1
  = Ok [[(1 # 4, 0); (0, 0); (0, 0); (0, -1 # 2)];
        [(0, 0); (1 # 4, 0); (0, -1 # 2); (0, 0)];
        [(0, 0); (0, 1 # 2); (1 # 4, 0); (0, 0)];
        [(0, 1 # 2); (0, 0); (0, 0); (1 # 4, 0)]]%Q.
Proof. reflexivity. Qed.

(** Spin 1 on two qubits, location UPPER and padding 1: the 3 by 3 matrix in
    the upper-left block and the padding at position (3, 3). *)
Example embed_spin_one_upper :
  (_embed_matrix spin_one_z 2 (heap_of no_terms)).1
  = Ok [[c1; c0; c0; c0]; [c0; c0; c0; c0]; [c0; c0; (-1, 0)%Q; c0]; [c0; c0; c0; c1]].
Proof. reflexivity. Qed.

(** The same matrix with location LOWER and padding 1/2 *)
Example embed_spin_one_lower :
  (_embed_matrix spin_one_z 2 (Heap (__init__ half (Member LOWER)) no_terms)).1
  = Ok [[half; c0; c0; c0]; [c0; c1; c0; c0]; [c0; c0; c0; c0]; [c0; c0; c0; (-1, 0)%Q]].
Proof. reflexivity. Qed.

(** A location that is no member of the enumeration is refused only when
    there is something to pad. *)
Example embed_location_error :
  (_embed_matrix spin_one_z 2 (Heap (__init__ c1 NonMember) no_terms)).1
    = Err ValueError_location
  ∧ (_embed_matrix (spin_half sym_X) 1 (Heap (__init__ c1 NonMember) no_terms)).1
    = Ok (spin_half sym_X).
Proof. split; reflexivity. Qed.

(** A provider that does not look at the spin lets the encoding go on with
    the truncated dimension: spin 3/4 is encoded as spin 1/2. *)
Example encoding_truncates :
  dspin_of (3 # 4) = 2%Z ∧
  _logarithmic_encoding (provider := unchecked_provider) (3 # 4) (heap_of no_terms)
  = _logarithmic_encoding (provider := unchecked_provider) (1 # 2) (heap_of no_terms).
Proof. split; reflexivity. Qed.

Lemma term_operator_reverse_tensor_witness :
  SpinOp.exponents term_xy ≠ [] ∧
  term_operator (spin_half sym_X) (spin_half sym_Y) (spin_half sym_Z) (np_eye 2)
    (SpinOp.coeff term_xy) (SpinOp.exponents term_xy)
  = Ok (op_smul (SpinOp.coeff term_xy)
          (tensored_reversed (np_eye 2)
             (local_operator_of (spin_half sym_X) (spin_half sym_Y) (spin_half sym_Z)
                (np_eye 2) <$> SpinOp.exponents term_xy))).
Proof.
  split; [discriminate |].
  apply (term_operator_reverse_tensor (C := gq)). discriminate.
Defined.

Lemma embed_matrix_block_diagonal_witness :
  (0 ≤ 2)%Z ∧ has_shape 3 3 spin_one_z ∧ (2 ^ 2 - Z.of_nat 3 > 0)%Z ∧
  _location (self (heap_of no_terms)) = Member UPPER ∧
  ∃ full, _embed_matrix spin_one_z 2 (heap_of no_terms) = (Ok full, heap_of no_terms) ∧
          block_embedded UPPER c1 spin_one_z 3 (Z.to_nat (2 ^ 2)) full.
Proof.
  assert (Hshape : has_shape 3 3 spin_one_z) by (apply has_shapeb_spec; reflexivity).
  split_and!; [lia | exact Hshape | lia | reflexivity |].
  apply (embed_matrix_block_diagonal spin_one_z 2 (heap_of no_terms) UPPER 3);
    [lia | exact Hshape | lia | reflexivity].
Defined.

Lemma embed_matrix_exact_fit_witness :
  (0 ≤ 1)%Z ∧ shape0 (spin_half sym_X) = (2 ^ 1)%Z ∧
  _embed_matrix (spin_half sym_X) 1 (heap_of no_terms)
  = (Ok (spin_half sym_X), heap_of no_terms).
Proof.
  split_and!; [lia | reflexivity |].
  apply (embed_matrix_exact_fit (spin_half sym_X) 1 (heap_of no_terms));
    [lia | reflexivity].
Defined.

(** [spin_one_z] fits on two qubits and does not fit on one. *)
Lemma embed_matrix_dimension_error_witness :
  ((0 ≤ 2)%Z ∧ (shape0 spin_one_z ≤ 2 ^ 2)%Z ∧
   has_shape (length spin_one_z) (length spin_one_z) spin_one_z ∧
   (∃ location, _location (self (heap_of no_terms)) = Member location) ∧
   ¬ is_dimension_error (_embed_matrix spin_one_z 2 (heap_of no_terms)).1 ∧
   ∃ full, _embed_matrix spin_one_z 2 (heap_of no_terms) = (Ok full, heap_of no_terms))
  ∧ ((0 ≤ 1)%Z ∧ (2 ^ 1 < shape0 spin_one_z)%Z ∧
     is_dimension_error (_embed_matrix spin_one_z 1 (heap_of no_terms)).1).
Proof.
  assert (Hshape : has_shape 3 3 spin_one_z) by (apply has_shapeb_spec; reflexivity).
  assert (Hloc : ∃ location, _location (self (heap_of no_terms)) = Member location)
    by (by exists UPPER).
  split.
  - destruct (embed_matrix_dimension_error spin_one_z 2 (heap_of no_terms))
      as [Hiff Hfits]; [lia |].
    split_and!; [lia | vm_compute; discriminate | exact Hshape | exact Hloc | |].
    + intros Herr. apply Hiff in Herr. vm_compute in Herr. discriminate.
    + apply Hfits; [vm_compute; discriminate | exact Hshape | exact Hloc].
  - destruct (embed_matrix_dimension_error spin_one_z 1 (heap_of no_terms))
      as [Hiff _]; [lia |].
    split_and!; [lia | reflexivity |]. apply Hiff. reflexivity.
Defined.

Lemma num_qubits_minimal_witness :
  (0 ≤ 2)%Z ∧ (2 * 1 == inject_Z 2)%Q ∧ (2 + 1 ≤ 2 ^ 49)%Z ∧
  dspin_of 1 = (2 + 1)%Z ∧
  ∃ n, num_qubits_of 1 = Ok n ∧ (0 ≤ n)%Z ∧ (2 + 1 ≤ 2 ^ n)%Z ∧
       ∀ m, (0 ≤ m)%Z → (2 + 1 ≤ 2 ^ m)%Z → (n ≤ m)%Z.
Proof.
  split; [lia |]. split; [reflexivity |]. split; [lia |].
  apply (num_qubits_minimal 1 2); [lia | reflexivity | lia].
Defined.

(** C4, as the specification has it, fails at the spin S = 2^48: the
    dimension is 2^49 + 1, its float64 logarithm is 49.0, and 49 qubits do not
    hold 2^49 + 1 states. *)
Lemma num_qubits_rounds_down :
  ¬ (∀ (spin : Q) (k : Z),
       (0 ≤ k)%Z → (2 * spin == inject_Z k)%Q →
       ∃ n, num_qubits_of spin = Ok n ∧ (k + 1 ≤ 2 ^ n)%Z ∧
            ∀ m, (0 ≤ m)%Z → (k + 1 ≤ 2 ^ m)%Z → (n ≤ m)%Z).
Proof.
  intros Hclaim.
  destruct (Hclaim (inject_Z (2 ^ 48)) (2 ^ 49)%Z) as (n & Hn & Hfit & _);
    [lia | reflexivity |].
  vm_compute in Hn. injection Hn as <-. vm_compute in Hfit. apply Hfit. reflexivity.
Qed.

Lemma map_empty_operator_witness :
  SpinOp.terms (second_q_op (heap_of no_terms)) = [] ∧
  map (provider := checked_provider) (Op := ndarray gq) (heap_of no_terms)
  = (Err TypeError_reduce_empty, heap_of no_terms).
Proof.
  split; [reflexivity |].
  destruct (map_empty_operator (provider := checked_provider) (Op := ndarray gq)
              (heap_of no_terms) eq_refl) as (_ & Hraise & _).
  eapply Hraise. reflexivity.
Defined.

(** Spin -1/2 has dimension 0, spin -1 dimension -1, spin 2^64 a dimension
    outside uint64; spin 3/4 has dimension 2 and is refused by the provider. *)
Lemma encoding_without_spin_check_witness :
  _logarithmic_encoding (provider := checked_provider) (Op := ndarray gq)
    (-1 # 2) (heap_of no_terms) = (Err OverflowError_inf_to_int, heap_of no_terms) ∧
  _logarithmic_encoding (provider := checked_provider) (Op := ndarray gq)
    (-1) (heap_of no_terms) = (Err ValueError_nan_to_int, heap_of no_terms) ∧
  _logarithmic_encoding (provider := checked_provider) (Op := ndarray gq)
    (inject_Z (2 ^ 64)) (heap_of no_terms) = (Err TypeError_log2_object, heap_of no_terms) ∧
  (1 ≤ dspin_of (3 # 4) < 2 ^ 64)%Z ∧
  spin_to_matrix (SpinMatrices := checked_provider) sym_X (3 # 4) = Err SpinOp_error ∧
  _logarithmic_encoding (provider := checked_provider) (Op := ndarray gq)
    (3 # 4) (heap_of no_terms) = (Err SpinOp_error, heap_of no_terms).
Proof.
  assert (Hd : (1 ≤ dspin_of (3 # 4) < 2 ^ 64)%Z)
    by (split; [vm_compute; discriminate | reflexivity]).
  split_and!.
  - destruct (encoding_without_spin_check (provider := checked_provider)
                (Op := ndarray gq) (-1 # 2) (heap_of no_terms)) as (Hzero & _).
    apply Hzero. reflexivity.
  - destruct (encoding_without_spin_check (provider := checked_provider)
                (Op := ndarray gq) (-1) (heap_of no_terms)) as (_ & Hneg & _).
    apply Hneg. split; [vm_compute; discriminate | reflexivity].
  - destruct (encoding_without_spin_check (provider := checked_provider)
                (Op := ndarray gq) (inject_Z (2 ^ 64)) (heap_of no_terms))
      as (_ & _ & Hobj & _).
    apply Hobj. right. vm_compute. discriminate.
  - apply Hd.
  - apply Hd.
  - reflexivity.
  - destruct (encoding_without_spin_check (provider := checked_provider)
                (Op := ndarray gq) (3 # 4) (heap_of no_terms)) as (_ & _ & _ & Hprov).
    destruct (Hprov Hd) as [_ Hraise]. apply Hraise. left. reflexivity.
Defined.

(** C7, as the specification has it, fails: the encoding of the negative
    spin -1/2 does not end in an exception that reports the spin, but in the
    OverflowError of [int(-inf)], raised on the dimension 0. *)
Lemma encoding_spin_error_refuted :
  ¬ (∀ spin : Q, valid_spin spin = false →
       ∃ e, (_logarithmic_encoding (provider := checked_provider) (Op := ndarray gq)
               spin (heap_of no_terms)).1 = Err e
            ∧ is_invalid_spin_error e = true).
Proof.
  intros Hclaim. destruct (Hclaim (-1 # 2)%Q eq_refl) as (e & Hrun & Hspin).
  vm_compute in Hrun. injection Hrun as <-. discriminate Hspin.
Qed.
End Runs.

(** * Further properties of the three methods *)

(** ** [_embed_matrix]: errors, shape and reading the matrix back *)

Section EmbedMatrixMore.
Context {C : Type} {scalar : Scalar C}.
Implicit Types (matrix full : ndarray C) (num_qubits : Z) (h : heap C).

Import LogarithmicMapper.

Lemma np_block_error (a b c d : ndarray C) e :
  np_block a b c d = Err e → e = ValueError_block_shape.
Proof.
  unfold np_block, hstack, vstack.
  repeat (case_match; simpl); intros; by simplify_eq.
Qed.

Lemma vstack_mismatch w1 w2 (t b : ndarray C) :
  t ≠ [] → b ≠ [] → w1 ≠ w2 →
  Forall (λ row, length row = w1) t → Forall (λ row, length row = w2) b →
  vstack t b = Err ValueError_block_shape.
Proof.
  intros Ht Hb Hw Hwt Hwb. unfold vstack.
  destruct t as [|row t]; [done |]. destruct b as [|row' b]; [done |].
  simpl. rewrite Nat.eqb_refl. simpl.
  rewrite forallb_app. simpl.
  inversion Hwt; inversion Hwb; subst.
  replace (length row' =? length row) with false; [by rewrite !andb_false_r |].
  symmetry. apply Nat.eqb_neq. congruence.
Qed.

(** X1: the location is looked at only when the matrix is strictly smaller
    than the register.  [_embed_matrix] raises the location error exactly
    when padding is needed and the location is no member of [EmbedLocation];
    a matrix that fits exactly, or does not fit, never meets the check. *)
Theorem embed_matrix_location_error matrix num_qubits h :
  (0 ≤ num_qubits)%Z →
  (_embed_matrix matrix num_qubits h).1 = Err ValueError_location ↔
  (shape0 matrix < 2 ^ num_qubits)%Z ∧ _location (self h) = NonMember.
Proof.
  intros Hn. rewrite (embed_matrix_branches _ _ _ Hn). simpl.
  destruct (Z.eqb_spec (2 ^ num_qubits - shape0 matrix) 0).
  { split; [discriminate | lia]. }
  destruct (Z.gtb_spec (2 ^ num_qubits - shape0 matrix) 0).
  - destruct (_location (self h)) as [[] |].
    + split; [intros Hb; apply np_block_error in Hb; discriminate | intros [_ ?]; discriminate].
    + split; [intros Hb; apply np_block_error in Hb; discriminate | intros [_ ?]; discriminate].
    + split; [intros _; split; [lia | done] | done].
  - split; [discriminate | lia].
Qed.

(** X2: whatever [_embed_matrix] returns for a square matrix lives on the
    whole register: it has 2^num_qubits rows and 2^num_qubits columns, with or
    without padding. *)
Theorem embed_matrix_result_shape matrix num_qubits h d full h' :
  (0 ≤ num_qubits)%Z → has_shape d d matrix →
  _embed_matrix matrix num_qubits h = (Ok full, h') →
  has_shape (Z.to_nat (2 ^ num_qubits)) (Z.to_nat (2 ^ num_qubits)) full.
Proof.
  intros Hn Hm Hrun.
  assert (Hlen : length matrix = d) by apply Hm.
  destruct (Z.lt_trichotomy (2 ^ num_qubits) (Z.of_nat d)) as [Hlt | [Heq | Hgt]].
  - rewrite (embed_matrix_branches _ _ _ Hn) in Hrun. unfold shape0 in Hrun.
    rewrite Hlen in Hrun.
    destruct (Z.eqb_spec (2 ^ num_qubits - Z.of_nat d) 0); [lia |].
    destruct (Z.gtb_spec (2 ^ num_qubits - Z.of_nat d) 0); [lia | discriminate].
  - rewrite (embed_matrix_branches _ _ _ Hn) in Hrun. unfold shape0 in Hrun.
    rewrite Hlen, Heq, Z.sub_diag in Hrun. simpl in Hrun.
    injection Hrun as <- _. by rewrite Heq, Nat2Z.id.
  - destruct (_location (self h)) as [location |] eqn:Hloc.
    + rewrite (embed_matrix_padded matrix num_qubits h location d) in Hrun by (done || lia).
      injection Hrun as <- _.
      set (dd := Z.to_nat (2 ^ num_qubits - Z.of_nat d)).
      pose proof (np_zeros_shape (C := C) d dd) as Hz1.
      pose proof (np_zeros_shape (C := C) dd d) as Hz2.
      pose proof (np_eye_scaled_shape dd (_padding (self h))) as He.
      destruct location.
      * replace (Z.to_nat (2 ^ num_qubits)) with (d + dd) by (subst dd; lia).
        by apply (block_shape d dd d dd).
      * replace (Z.to_nat (2 ^ num_qubits)) with (dd + d) by (subst dd; lia).
        by apply (block_shape dd d dd d).
    + rewrite (embed_matrix_branches _ _ _ Hn) in Hrun. unfold shape0 in Hrun.
      rewrite Hlen, Hloc in Hrun.
      destruct (Z.eqb_spec (2 ^ num_qubits - Z.of_nat d) 0); [lia |].
      destruct (Z.gtb_spec (2 ^ num_qubits - Z.of_nat d) 0); [discriminate | lia].
Qed.

(** X3: a matrix that is not square and needs padding is refused by
    [np.block]: with r rows (at least one) of c columns, c different from r,
    and r < 2^num_qubits, the two block rows have different widths and
    [_embed_matrix] raises the ValueError of [np.block]. *)
Theorem embed_matrix_rejects_rectangular matrix num_qubits h r c location :
  (0 ≤ num_qubits)%Z → has_shape r c matrix → 0 < r → c ≠ r →
  (Z.of_nat r < 2 ^ num_qubits)%Z → _location (self h) = Member location →
  _embed_matrix matrix num_qubits h = (Err ValueError_block_shape, h).
Proof.
  intros Hn Hm Hr Hc Hfit Hloc. rewrite (embed_matrix_branches _ _ _ Hn).
  assert (Hlen : length matrix = r) by apply Hm. unfold shape0. rewrite Hlen.
  set (dd := Z.to_nat (2 ^ num_qubits - Z.of_nat r)).
  assert (Hdd : 0 < dd) by (subst dd; lia).
  destruct (Z.eqb_spec (2 ^ num_qubits - Z.of_nat r) 0) as [|_]; [lia |].
  destruct (Z.gtb_spec (2 ^ num_qubits - Z.of_nat r) 0) as [_|]; [| lia].
  rewrite Hloc. f_equal.
  pose proof (np_zeros_shape (C := C) r dd) as Hz1.
  pose proof (np_zeros_shape (C := C) dd r) as Hz2.
  pose proof (np_eye_scaled_shape dd (_padding (self h))) as He.
  destruct location; unfold np_block, hstack.
  - destruct Hz1 as [Hlz1 ?], Hz2 as [Hlz2 ?], He as [Hle ?].
    rewrite Hlen, Hlz1, Hlz2, Hle, !Nat.eqb_refl. simpl.
    destruct (zip_with_app_shape r c dd matrix (np_zeros r dd)) as [Hl1 Hw1]; [done | done |].
    destruct (zip_with_app_shape dd r dd (np_zeros dd r)
                (np_scale (np_eye dd) (_padding (self h)))) as [Hl2 Hw2]; [done | done |].
    apply (vstack_mismatch (c + dd) (r + dd)); try done; try lia.
    + intros E. rewrite E in Hl1. simpl in Hl1. lia.
    + intros E. rewrite E in Hl2. simpl in Hl2. lia.
  - destruct Hz1 as [Hlz1 ?], Hz2 as [Hlz2 ?], He as [Hle ?].
    rewrite Hlen, Hlz1, Hlz2, Hle, !Nat.eqb_refl. simpl.
    destruct (zip_with_app_shape dd dd r (np_scale (np_eye dd) (_padding (self h)))
                (np_zeros dd r)) as [Hl1 Hw1]; [done | done |].
    destruct (zip_with_app_shape r dd c (np_zeros r dd) matrix) as [Hl2 Hw2]; [done | done |].
    apply (vstack_mismatch (dd + r) (dd + c)); try done; try lia.
    + intros E. rewrite E in Hl1. simpl in Hl1. lia.
    + intros E. rewrite E in Hl2. simpl in Hl2. lia.
Qed.
End EmbedMatrixMore.

Section EmbedMatrixBlocks.
Context {C : Type} {scalar : Scalar C}.
Implicit Types (matrix full : ndarray C) (num_qubits : Z) (h : heap C).

Import LogarithmicMapper.

Lemma take_left_of_hstack w (a b : ndarray C) :
  length a = length b → Forall (λ row, length row = w) a →
  take w <$> zip_with app a b = a.
Proof.
  revert b. induction a as [|row a IH]; intros [|row' b] Hlen Hw; try done.
  inversion Hw as [|? ? Hrow Hrest]; subst. simpl. f_equal.
  - by rewrite take_app_length.
  - apply IH; [by injection Hlen | done].
Qed.

Lemma drop_left_of_hstack w (a b : ndarray C) :
  length a = length b → Forall (λ row, length row = w) a →
  drop w <$> zip_with app a b = b.
Proof.
  revert b. induction a as [|row a IH]; intros [|row' b] Hlen Hw; try done.
  inversion Hw as [|? ? Hrow Hrest]; subst. simpl. f_equal.
  - by rewrite drop_app_length.
  - apply IH; [by injection Hlen | done].
Qed.

Lemma take_all_columns d (m : ndarray C) :
  Forall (λ row, length row = d) m → take d <$> m = m.
Proof.
  induction 1 as [|row m Hrow _ IH]; [done |]. simpl. f_equal; [| done].
  apply take_ge. lia.
Qed.

Lemma sub_block_whole d matrix :
  has_shape d d matrix → sub_block 0 0 d d matrix = matrix.
Proof.
  intros [Hlen Hrows].
  transitivity (take d <$> matrix); [| by apply take_all_columns].
  unfold sub_block. rewrite drop_0, (take_ge matrix d) by lia. done.
Qed.

Lemma sub_block_upper d dd matrix (z1 bottom : ndarray C) :
  has_shape d d matrix → has_shape d dd z1 →
  sub_block 0 0 d d (zip_with app matrix z1 ++ bottom) = matrix.
Proof.
  intros [Hlen Hrows] [Hlz _].
  transitivity (take d <$> zip_with app matrix z1);
    [| apply take_left_of_hstack; (done || lia)].
  unfold sub_block. rewrite drop_0.
  replace (take d (zip_with app matrix z1 ++ bottom)) with (zip_with app matrix z1); [done |].
  rewrite take_app_le by (rewrite length_zip_with; lia).
  symmetry. apply take_ge. rewrite length_zip_with. lia.
Qed.

Lemma sub_block_lower d dd matrix (top z2 : ndarray C) :
  has_shape d d matrix → has_shape d dd z2 → has_shape dd (dd + d) top →
  sub_block dd dd d d (top ++ zip_with app z2 matrix) = matrix.
Proof.
  intros [Hlen Hrows] [Hlz Hz] [Hlt _].
  transitivity (drop dd <$> zip_with app z2 matrix);
    [| apply drop_left_of_hstack; (done || lia)].
  unfold sub_block.
  replace (drop dd (top ++ zip_with app z2 matrix)) with (zip_with app z2 matrix)
    by (rewrite <- Hlt at 1; by rewrite drop_app_length).
  rewrite (take_ge (zip_with app z2 matrix) d) by (rewrite length_zip_with; lia).
  apply list_fmap_ext. intros i row Hi.
  apply take_ge.
  apply lookup_zip_with_Some in Hi as (rz & rm & -> & Hrz & Hrm).
  rewrite Forall_lookup in Hz, Hrows.
  rewrite length_drop, length_app, (Hz _ _ Hrz), (Hrows _ _ Hrm). lia.
Qed.

(** X4: reading back what was embedded.  For a d-by-d matrix that fits and a
    location of the enumeration, the d-by-d diagonal block of the result at
    the offset of the location (0 for UPPER, 2^num_qubits - d for LOWER) is
    the input matrix itself. *)
Theorem embed_matrix_read_back matrix num_qubits h location d :
  (0 ≤ num_qubits)%Z → has_shape d d matrix → (Z.of_nat d ≤ 2 ^ num_qubits)%Z →
  _location (self h) = Member location →
  ∃ full, _embed_matrix matrix num_qubits h = (Ok full, h) ∧
          let offset := block_offset location d (Z.to_nat (2 ^ num_qubits)) in
          sub_block offset offset d d full = matrix.
Proof.
  intros Hn Hm Hfit Hloc.
  assert (Hlen : length matrix = d) by apply Hm.
  destruct (Z.eq_dec (Z.of_nat d) (2 ^ num_qubits)) as [Heq | Hne].
  - exists matrix. split.
    + rewrite (embed_matrix_branches _ _ _ Hn). unfold shape0.
      by rewrite Hlen, Heq, Z.sub_diag.
    + simpl. rewrite <- Heq, Nat2Z.id.
      replace (block_offset location d d) with 0
        by (destruct location; simpl; lia).
      by apply sub_block_whole.
  - rewrite (embed_matrix_padded matrix num_qubits h location d) by (done || lia).
    set (dd := Z.to_nat (2 ^ num_qubits - Z.of_nat d)).
    eexists; split; [reflexivity |]. simpl.
    pose proof (np_zeros_shape (C := C) d dd) as Hz1.
    pose proof (np_zeros_shape (C := C) dd d) as Hz2.
    pose proof (np_eye_scaled_shape dd (_padding (self h))) as He.
    destruct location; simpl.
    + by apply (sub_block_upper d dd).
    + replace (Z.to_nat (2 ^ num_qubits) - d) with dd by (subst dd; lia).
      apply (sub_block_lower d dd); [done | done |].
      by apply (zip_with_app_shape dd dd d).
Qed.

Lemma np_eye_entry d i j :
  i < d → j < d → entry (np_eye (C := C) d) i j = Some (eye_entry i j).
Proof.
  intros Hi Hj. unfold entry, np_eye.
  rewrite list_lookup_fmap, (lookup_seq_lt _ _ _ Hi). simpl.
  by rewrite list_lookup_fmap, (lookup_seq_lt _ _ _ Hj).
Qed.

Lemma np_eye_has_shape d : has_shape d d (np_eye (C := C) d).
Proof.
  unfold np_eye. split.
  - by rewrite length_fmap, length_seq.
  - rewrite Forall_fmap. apply Forall_forall. intros i _. simpl.
    by rewrite length_fmap, length_seq.
Qed.

(** Two arrays of one shape with the same entries are the same array. *)
Lemma ndarray_ext r w (a b : ndarray C) :
  has_shape r w a → has_shape r w b →
  (∀ i j, i < r → j < w → entry a i j = entry b i j) → a = b.
Proof.
  intros [Hla Ha] [Hlb Hb] Hent. apply list_eq. intros i.
  destruct (a !! i) as [ra|] eqn:Era.
  - assert (Hi : i < r) by (rewrite <- Hla; by eapply lookup_lt_Some).
    destruct (lookup_lt_is_Some_2 b i) as [rb Erb]; [lia |]. rewrite Erb. f_equal.
    rewrite Forall_lookup in Ha, Hb.
    apply list_eq. intros j.
    destruct (decide (j < w)) as [Hj | Hj].
    + specialize (Hent i j Hi Hj). unfold entry in Hent.
      by rewrite Era, Erb in Hent.
    + rewrite !lookup_ge_None_2; [done | rewrite (Hb _ _ Erb); lia | rewrite (Ha _ _ Era); lia].
  - apply lookup_ge_None in Era. symmetry. apply lookup_ge_None. lia.
Qed.

(** X5: with padding one the identity stays the identity.  When the scalars
    satisfy 1 * 1 = 1 and 0 * 1 = 0 and the mapper pads with one, embedding
    the d-by-d identity gives the identity of the whole register, for UPPER
    and for LOWER. *)
Theorem embed_identity_padding_one num_qubits h location d :
  cmul (c1 : C) c1 = c1 → cmul (c0 : C) c1 = c0 →
  (0 ≤ num_qubits)%Z → (Z.of_nat d ≤ 2 ^ num_qubits)%Z →
  _location (self h) = Member location → _padding (self h) = c1 →
  _embed_matrix (np_eye d) num_qubits h = (Ok (np_eye (Z.to_nat (2 ^ num_qubits))), h).
Proof.
  intros H11 H01 Hn Hfit Hloc Hpad.
  pose proof (np_eye_has_shape d) as Hm.
  destruct (Z.eq_dec (Z.of_nat d) (2 ^ num_qubits)) as [Heq | Hne].
  - rewrite (embed_matrix_branches _ _ _ Hn). unfold shape0.
    destruct Hm as [Hlen _]. rewrite Hlen, Heq, Z.sub_diag. simpl.
    by rewrite <- Heq, Nat2Z.id.
  - rewrite (embed_matrix_padded (np_eye d) num_qubits h location d) by (done || lia).
    set (dd := Z.to_nat (2 ^ num_qubits - Z.of_nat d)). rewrite Hpad.
    assert (Heye : ∀ i j, cmul (eye_entry i j : C) c1 = eye_entry i j).
    { intros i j. unfold eye_entry. by destruct (i =? j). }
    do 2 f_equal.
    destruct location.
    + replace (Z.to_nat (2 ^ num_qubits)) with (d + dd) by (subst dd; lia).
      destruct (upper_block_form c1 (np_eye d) d dd Hm) as (Hs & Hin & Hpd & Hc1 & Hc2).
      apply (ndarray_ext (d + dd) (d + dd)); [done | apply np_eye_has_shape |].
      intros i j Hi Hj. rewrite (np_eye_entry (d + dd)) by done.
      destruct (decide (i < d)), (decide (j < d)).
      * rewrite Hin by done. by apply np_eye_entry.
      * rewrite Hc1 by lia. unfold eye_entry.
        destruct (Nat.eqb_spec i j); [lia | done].
      * rewrite Hc2 by lia. unfold eye_entry.
        destruct (Nat.eqb_spec i j); [lia | done].
      * rewrite Hpd by lia. rewrite Heye. unfold eye_entry.
        destruct (Nat.eqb_spec (i - d) (j - d)), (Nat.eqb_spec i j); (done || lia).
    + replace (Z.to_nat (2 ^ num_qubits)) with (dd + d) by (subst dd; lia).
      destruct (lower_block_form c1 (np_eye d) d dd Hm) as (Hs & Hin & Hpd & Hc1 & Hc2).
      replace (dd + d - d) with dd in * by lia.
      apply (ndarray_ext (dd + d) (dd + d)); [done | apply np_eye_has_shape |].
      intros i j Hi Hj. rewrite (np_eye_entry (dd + d)) by done.
      destruct (decide (i < dd)), (decide (j < dd)).
      * rewrite Hpd by done. by rewrite Heye.
      * rewrite Hc1 by lia. unfold eye_entry.
        destruct (Nat.eqb_spec i j); [lia | done].
      * rewrite Hc2 by lia. unfold eye_entry.
        destruct (Nat.eqb_spec i j); [lia | done].
      * replace i with (dd + (i - dd)) at 1 by lia.
        replace j with (dd + (j - dd)) at 1 by lia.
        rewrite Hin by lia. rewrite np_eye_entry by lia. unfold eye_entry.
        destruct (Nat.eqb_spec (i - dd) (j - dd)), (Nat.eqb_spec i j); (done || lia).
Qed.
End EmbedMatrixBlocks.

(** ** [_logarithmic_encoding]: the dimension, the register and the padding *)

Section EncodingMore.
Context {C Op : Type} {scalar : Scalar C} {algebra : OpAlgebra C Op}
        {provider : SpinMatrices C}.
Implicit Types (h : heap C) (spin : Q).

Import LogarithmicMapper.

Lemma ceil_log2_pow2_check :
  forallb (λ i, match (log ← np_log2 (2 ^ Z.of_nat i); int_of_float (np_ceil log)) with
                | Ok m => (m =? Z.of_nat i)%Z
                | Err _ => false
                end) (seq 0 64) = true.
Proof. vm_compute. reflexivity. Qed.

(** The logarithm of a power of two of the int64 and uint64 range is exact. *)
Lemma ceil_log2_pow2 (n : Z) :
  (0 ≤ n < 64)%Z → (log ← np_log2 (2 ^ n); int_of_float (np_ceil log)) = Ok n.
Proof.
  intros Hn. pose proof ceil_log2_pow2_check as Hall.
  rewrite forallb_forall in Hall. specialize (Hall (Z.to_nat n)).
  rewrite Z2Nat.id in Hall by lia.
  destruct (log ← np_log2 (2 ^ n); int_of_float (np_ceil log)) as [m|e].
  - f_equal. apply Z.eqb_eq, Hall, in_seq. lia.
  - discriminate Hall. apply in_seq. lia.
Qed.

(** X6: the register is less than twice as large as the spin.  For a
    dimension d = int(2 spin + 1) from 1 to 2^49 (where the float64 logarithm
    of line 132 is still exact enough), the number of qubits n satisfies
    d <= 2^n < 2 d, so the padding block 2^n - d is strictly smaller than the
    block of a d by d spin matrix. *)
Theorem register_less_than_twice_dimension spin :
  (1 ≤ dspin_of spin ≤ 2 ^ 49)%Z →
  ∃ n, num_qubits_of spin = Ok n ∧ (0 ≤ n)%Z ∧
       (dspin_of spin ≤ 2 ^ n)%Z ∧ (2 ^ n < 2 * dspin_of spin)%Z.
Proof.
  intros Hd. destruct (ceil_log2_minimal _ Hd) as (n & Hn & Hn0 & Hfit & Hmin).
  exists n. split_and!; [done .. |].
  destruct (Z.eq_dec n 0) as [-> | Hnz]; [simpl; lia |].
  destruct (Z.le_gt_cases (dspin_of spin) (2 ^ (n - 1))) as [Hle | Hgt].
  - specialize (Hmin (n - 1)%Z ltac:(lia) Hle). lia.
  - replace n with (Z.succ (n - 1)) at 1 by lia.
    rewrite Z.pow_succ_r by lia. lia.
Qed.

(** X7: a spin that is no half-integer is rounded down without notice.  For
    2 spin + 1 >= 0 the dimension [int(2 * spin + 1)] is the floor of
    2 spin + 1: d <= 2 spin + 1 < d + 1. *)
Theorem dimension_is_floor spin :
  (0 <= 2 * spin + 1)%Q →
  (inject_Z (dspin_of spin) <= 2 * spin + 1)%Q ∧
  (2 * spin + 1 < inject_Z (dspin_of spin + 1))%Q.
Proof.
  unfold dspin_of, int_of_fraction.
  destruct (2 * spin + 1)%Q as [a b]. unfold Qle, Qlt, inject_Z. simpl.
  intros Ha. rewrite Z.mul_1_r in *.
  rewrite Z.quot_div_nonneg by lia.
  pose proof (Z.mul_div_le a (Z.pos b) ltac:(lia)).
  pose proof (Z.mul_succ_div_gt a (Z.pos b) ltac:(lia)).
  unfold Z.succ in *. split; lia.
Qed.

Lemma embed_matrix_exact_run (matrix : ndarray C) (n : Z) h :
  (0 ≤ n)%Z → shape0 matrix = (2 ^ n)%Z →
  _embed_matrix matrix n h = (Ok matrix, h).
Proof.
  intros Hn Hfit. rewrite (embed_matrix_branches _ _ _ Hn), Hfit.
  by rewrite Z.sub_diag.
Qed.

(** The encoding of a spin whose dimension is a power of two, when the spin
    matrices have that dimension: no matrix is padded and the mapper is not
    read. *)
Lemma encoding_unpadded_run spin h (n : Z) :
  (0 ≤ n < 64)%Z → dspin_of spin = (2 ^ n)%Z →
  (∀ s m, spin_to_matrix s spin = Ok m → shape0 m = (2 ^ n)%Z) →
  _logarithmic_encoding (Op := Op) spin h =
    (mx ← spin_to_matrix sym_X spin;
     my ← spin_to_matrix sym_Y spin;
     mz ← spin_to_matrix sym_Z spin;
     spinx ← pauli_sum_of_matrix mx;
     spiny ← pauli_sum_of_matrix my;
     spinz ← pauli_sum_of_matrix mz;
     identity ← pauli_sum_of_matrix (np_eye (Z.to_nat (2 ^ n)));
     mret (spinx, spiny, spinz, identity), h).
Proof.
  intros Hn Hd Hshape. unfold _logarithmic_encoding, num_qubits_of.
  assert (Hn0 : (0 ≤ n)%Z) by lia.
  rewrite Hd, (ceil_log2_pow2 n Hn).
  unfold mbind at 1, M_bind at 1, lift at 1. simpl.
  unfold mbind at 1, M_bind at 1, lift at 1.
  destruct (spin_to_matrix sym_X spin) as [mx|e] eqn:Hx; [| done].
  unfold mbind at 1, M_bind at 1, lift at 1.
  destruct (spin_to_matrix sym_Y spin) as [my|e] eqn:Hy; [| done].
  unfold mbind at 1, M_bind at 1, lift at 1.
  destruct (spin_to_matrix sym_Z spin) as [mz|e] eqn:Hz; [| done].
  assert (Heye : shape0 (np_eye (C := C) (Z.to_nat (2 ^ n))) = (2 ^ n)%Z).
  { unfold shape0, np_eye. rewrite length_fmap, length_seq.
    assert (0 < 2 ^ n)%Z by (apply Z.pow_pos_nonneg; lia). lia. }
  unfold mbind, M_bind.
  rewrite (embed_matrix_exact_run mx n h Hn0 (Hshape _ _ Hx)).
  rewrite (embed_matrix_exact_run my n h Hn0 (Hshape _ _ Hy)).
  rewrite (embed_matrix_exact_run mz n h Hn0 (Hshape _ _ Hz)).
  rewrite (embed_matrix_exact_run _ n h Hn0 Heye).
  unfold lift, result_bind, mret, M_ret, result_ret.
  repeat (case_match; try done).
Qed.

(** X8: for a spin whose dimension is a power of two 2^n of the int64 and
    uint64 range (spin 1/2, 3/2, 7/2, ...), with spin matrices of that
    dimension, the encoding is the decomposition into Pauli sums of the spin
    matrices as the provider gives them and of [np.eye(dspin)], in the order
    X, Y, Z, identity: it returns the four operators when all four
    decompose and raises the first exception of a decomposition otherwise.
    Padding and location play no part, also a location outside the
    enumeration. *)
Theorem encoding_power_of_two spin h (n : Z) (mx my mz : ndarray C) :
  (0 ≤ n < 64)%Z → dspin_of spin = (2 ^ n)%Z →
  (∀ s m, spin_to_matrix s spin = Ok m → shape0 m = (2 ^ n)%Z) →
  spin_to_matrix sym_X spin = Ok mx → spin_to_matrix sym_Y spin = Ok my →
  spin_to_matrix sym_Z spin = Ok mz →
  _logarithmic_encoding (Op := Op) spin h =
    (spinx ← pauli_sum_of_matrix mx;
     spiny ← pauli_sum_of_matrix my;
     spinz ← pauli_sum_of_matrix mz;
     identity ← pauli_sum_of_matrix (np_eye (Z.to_nat (dspin_of spin)));
     mret (spinx, spiny, spinz, identity), h).
Proof.
  intros Hn Hd Hshape Hx Hy Hz.
  rewrite (encoding_unpadded_run spin h n Hn Hd Hshape), Hx, Hy, Hz, Hd. done.
Qed.

(** X9: a location outside the enumeration surfaces in the encoding only
    when there is something to pad.  When the dimension is from 1 to 2^49 and
    no power of two, the spin matrices arrive and the X matrix has the rows of
    the dimension, a mapper whose location is no member of [EmbedLocation]
    makes the encoding raise the location error. *)
Theorem encoding_location_error spin h (mx my mz : ndarray C) :
  (1 ≤ dspin_of spin ≤ 2 ^ 49)%Z → (∀ k, (0 ≤ k)%Z → dspin_of spin ≠ (2 ^ k)%Z) →
  spin_to_matrix sym_X spin = Ok mx → spin_to_matrix sym_Y spin = Ok my →
  spin_to_matrix sym_Z spin = Ok mz → shape0 mx = dspin_of spin →
  _location (self h) = NonMember →
  _logarithmic_encoding (Op := Op) spin h = (Err ValueError_location, h).
Proof.
  intros Hd Hpow Hx Hy Hz Hrows Hloc.
  destruct (ceil_log2_minimal _ Hd) as (n & Hn & Hn0 & Hfit & _).
  change (_ = Ok n) with (num_qubits_of spin = Ok n) in Hn.
  unfold _logarithmic_encoding, mbind, M_bind, lift.
  rewrite Hn, Hx, Hy, Hz.
  rewrite (embed_matrix_branches mx n h Hn0), Hrows, Hloc.
  specialize (Hpow n Hn0).
  destruct (Z.eqb_spec (2 ^ n - dspin_of spin) 0) as [|_]; [lia |].
  destruct (Z.gtb_spec (2 ^ n - dspin_of spin) 0) as [_|]; [done | lia].
Qed.
End EncodingMore.

(** ** [map]: the terms, their sum and the exceptions *)

Section MapMore.
Context {C Op : Type} {scalar : Scalar C} {algebra : OpAlgebra C Op}
        {provider : SpinMatrices C}.
Implicit Types (h : heap C) (tm : SpinOp.term C) (Xq Yq Zq Iq : Op).

Import LogarithmicMapper.

(** exponents that are not positive count as zero *)
Lemma local_operator_of_clamp Xq Yq Zq Iq (n : Z * Z * Z) :
  local_operator_of Xq Yq Zq Iq (Z.max 0 n.1.1, Z.max 0 n.1.2, Z.max 0 n.2)
  = local_operator_of Xq Yq Zq Iq n.
Proof.
  unfold local_operator_of. simpl.
  by rewrite !Z2Nat.inj_max, !Nat.max_0_l.
Qed.

(** X10: the three [reduce] calls on the powers and the one on the factors
    are guarded, so the operator of a mode is always built, whatever the
    exponents; an exponent that is not positive leaves its factor out, as the
    exponent 0 does. *)
Theorem operator_on_spin_i_never_raises Xq Yq Zq Iq (n : Z * Z * Z) :
  ∃ q, operator_on_spin_i Xq Yq Zq Iq n = Ok q ∧
       operator_on_spin_i Xq Yq Zq Iq (Z.max 0 n.1.1, Z.max 0 n.1.2, Z.max 0 n.2) = Ok q.
Proof.
  exists (local_operator_of Xq Yq Zq Iq n). split.
  - apply operator_on_spin_i_local.
  - rewrite operator_on_spin_i_local. f_equal. apply local_operator_of_clamp.
Qed.

(** what [term_operator] gives, by whether the term has a mode *)
Lemma term_operator_outcome Xq Yq Zq Iq tm :
  term_operator Xq Yq Zq Iq (SpinOp.coeff tm) (SpinOp.exponents tm) =
    match SpinOp.exponents tm with
    | [] => Err TypeError_reduce_empty
    | _ :: _ => Ok (term_value Xq Yq Zq Iq tm)
    end.
Proof.
  unfold term_operator, term_value.
  rewrite mapM_operator_on_spin_i. cbn [mbind result_bind].
  destruct (SpinOp.exponents tm) as [|n ns] eqn:E; [done |].
  by rewrite (reduce_tensor_reverse Iq).
Qed.

Lemma mapM_terms_ok Xq Yq Zq Iq (ts : list (SpinOp.term C)) :
  Forall (λ tm, SpinOp.exponents tm ≠ []) ts →
  mapM (λ tm, term_operator Xq Yq Zq Iq (SpinOp.coeff tm) (SpinOp.exponents tm)) ts
  = Ok (term_value Xq Yq Zq Iq <$> ts).
Proof.
  induction 1 as [|tm ts Hne _ IH]; [done |]. simpl.
  rewrite term_operator_outcome.
  destruct (SpinOp.exponents tm); [done |]. cbn [mbind result_bind].
  by rewrite IH.
Qed.

Lemma mapM_terms_err Xq Yq Zq Iq (ts : list (SpinOp.term C)) :
  ¬ Forall (λ tm, SpinOp.exponents tm ≠ []) ts →
  mapM (λ tm, term_operator Xq Yq Zq Iq (SpinOp.coeff tm) (SpinOp.exponents tm)) ts
  = Err TypeError_reduce_empty.
Proof.
  induction ts as [|tm ts IH]; intros Hnot; [by destruct Hnot |]. simpl.
  rewrite term_operator_outcome.
  destruct (SpinOp.exponents tm) as [|n ns] eqn:E; [done |]. cbn [mbind result_bind].
  rewrite IH; [done |]. intros Hall. apply Hnot. constructor; [by rewrite E | done].
Qed.

(** X11: the closed form of [map].  When the encoding returns (Xq, Yq, Zq,
    Iq) and every term of a non-empty operator has at least one mode, [map]
    returns the terms' operators added from the left in the order of the
    terms, each the coefficient times the reversed tensor product of its
    local operators. *)
Theorem map_closed_form h Xq Yq Zq Iq tm tms :
  (_logarithmic_encoding (SpinOp.spin (second_q_op h)) h).1 = Ok (Xq, Yq, Zq, Iq) →
  SpinOp.terms (second_q_op h) = tm :: tms →
  Forall (λ tm, SpinOp.exponents tm ≠ []) (tm :: tms) →
  map h = (Ok (foldl op_add (term_value Xq Yq Zq Iq tm) (term_value Xq Yq Zq Iq <$> tms)), h).
Proof.
  intros Henc Hterms Hmodes. rewrite map_run, Henc, Hterms. cbn [mbind result_bind].
  by rewrite (mapM_terms_ok _ _ _ _ _ Hmodes).
Qed.

(** X12: once the encoding has returned, [map] returns an operator exactly
    when the operator has a term and every term has a mode, and the only
    exception it can still raise is the TypeError of [reduce] on an empty
    sequence (no IndexError from [x[idx]], nothing from the powers). *)
Theorem map_outcome_after_encoding h encoding :
  (_logarithmic_encoding (Op := Op) (SpinOp.spin (second_q_op h)) h).1 = Ok encoding →
  ((∃ q, (map h).1 = Ok q) ↔
     SpinOp.terms (second_q_op h) ≠ [] ∧
     Forall (λ tm, SpinOp.exponents tm ≠ []) (SpinOp.terms (second_q_op h))) ∧
  (∀ e, (map (Op := Op) h).1 = Err e → e = TypeError_reduce_empty).
Proof.
  intros Henc. rewrite map_run, Henc. destruct encoding as [[[Xq Yq] Zq] Iq].
  cbn [mbind result_bind fst].
  destruct (decide (Forall (λ tm, SpinOp.exponents tm ≠ [])
                           (SpinOp.terms (second_q_op h)))) as [Hall | Hnot].
  - rewrite (mapM_terms_ok _ _ _ _ _ Hall). cbn [mbind result_bind].
    destruct (SpinOp.terms (second_q_op h)) as [|tm tms]; simpl.
    + split; [| intros e He; by simplify_eq].
      split; [intros [q Hq]; discriminate | intros [? _]; done].
    + split; [| intros e He; discriminate].
      split; [done | eauto].
  - rewrite (mapM_terms_err _ _ _ _ _ Hnot). cbn [mbind result_bind].
    split; [| intros e He; by simplify_eq].
    split; [intros [q Hq]; discriminate | intros [_ ?]; done].
Qed.

Lemma mapM_snoc {A B} (f : A → result B) (l : list A) (a : A) :
  mapM f (l ++ [a]) = (bs ← mapM f l; b ← f a; mret (bs ++ [b])).
Proof.
  induction l as [|a' l IH]; simpl.
  - by destruct (f a).
  - destruct (f a') as [b'|e]; [| done]. cbn [mbind result_bind].
    rewrite IH. destruct (mapM f l) as [bs|e]; [| done]. cbn [mbind result_bind].
    by destruct (f a).
Qed.

Lemma mapM_length {A B} (f : A → result B) (l : list A) (bs : list B) :
  mapM f l = Ok bs → length bs = length l.
Proof.
  revert bs. induction l as [|a l IH]; intros bs Hrun; simpl in Hrun.
  - by inversion Hrun.
  - destruct (f a) as [b|e]; [| by inversion Hrun]. cbn [mbind result_bind] in Hrun.
    destruct (mapM f l) as [bs'|e]; [| by inversion Hrun].
    inversion Hrun; subst. simpl. f_equal. by apply IH.
Qed.

(** X13: [map] is additive in the last term, for operators of any length.
    Mapping the terms [ts ++ [tm]] (with [ts] not empty) gives the sum of
    mapping [ts] and mapping [[tm]], and raises what the first failing of
    these two runs raises. *)
Theorem map_append_term (mapper : mapper_object C) (spin : Q)
    (ts : list (SpinOp.term C)) tm :
  ts ≠ [] →
  (map (Heap mapper (SpinOp.Make spin (ts ++ [tm])))).1 =
  (q ← (map (Heap mapper (SpinOp.Make spin ts))).1;
   r ← (map (Heap mapper (SpinOp.Make spin [tm]))).1;
   mret (op_add q r)).
Proof.
  intros Hts. rewrite !map_run. simpl.
  set (h := Heap mapper (SpinOp.Make spin (ts ++ [tm]))).
  rewrite (encoding_self_only spin (Heap mapper (SpinOp.Make spin ts)) h) by done.
  rewrite (encoding_self_only spin (Heap mapper (SpinOp.Make spin [tm])) h) by done.
  destruct (_logarithmic_encoding spin h).1 as [[[[Xq Yq] Zq] Iq]|e]; [| done].
  cbn [mbind result_bind]. rewrite mapM_snoc.
  destruct (mapM _ ts) as [qs|e] eqn:Hqs; [| done]. cbn [mbind result_bind].
  assert (Hlen : length qs = length ts) by by eapply mapM_length.
  destruct qs as [|q qs]; [destruct ts; done |].
  destruct (term_operator Xq Yq Zq Iq (SpinOp.coeff tm) _) as [r|e]; [| done].
  simpl. by rewrite foldl_app.
Qed.

(** X14: for a spin whose dimension is a power of two, with spin matrices of
    that dimension, the result of [map] does not depend on the mapper:
    any padding and any location (member of the enumeration or not) give the
    same operator or the same exception. *)
Theorem map_ignores_mapper_without_padding (mapper mapper' : mapper_object C)
    (op : SpinOp.t C) (n : Z) :
  (0 ≤ n)%Z → dspin_of (SpinOp.spin op) = (2 ^ n)%Z →
  (∀ s m, spin_to_matrix s (SpinOp.spin op) = Ok m → shape0 m = (2 ^ n)%Z) →
  (map (Op := Op) (Heap mapper op)).1 = (map (Op := Op) (Heap mapper' op)).1.
Proof.
  intros Hn Hd Hshape. rewrite !map_run. simpl.
  destruct (Z.lt_ge_cases n 64) as [Hlt | Hge].
  - by rewrite !(encoding_unpadded_run _ _ n (conj Hn Hlt) Hd Hshape).
  - assert (Hobj : (dspin_of (SpinOp.spin op) < - 2 ^ 63 ∨ 2 ^ 64 ≤ dspin_of (SpinOp.spin op))%Z).
    { right. rewrite Hd. apply Z.pow_le_mono_r; lia. }
    by rewrite !(encoding_dimension_object _ _ Hobj).
Qed.

Lemma local_operators_identity Xq Yq Zq Iq (zipped : list (Z * Z * Z)) :
  Forall (λ n, (n.1.1 ≤ 0 ∧ n.1.2 ≤ 0 ∧ n.2 ≤ 0)%Z) zipped →
  local_operator_of Xq Yq Zq Iq <$> zipped = replicate (length zipped) Iq.
Proof.
  induction 1 as [|[[n_x n_y] n_z] zipped (Hx & Hy & Hz) _ IH]; [done |].
  simpl in *. f_equal; [| done]. unfold local_operator_of. simpl.
  by replace (Z.to_nat n_x) with 0 by lia; replace (Z.to_nat n_y) with 0 by lia;
     replace (Z.to_nat n_z) with 0 by lia.
Qed.

(** X15: the identity term.  A term with at least one mode and no positive
    exponent on any mode maps to its coefficient times the tensor product of
    as many copies of the encoded identity as it has modes; the encoded X, Y
    and Z play no part. *)
Theorem identity_term_operator Xq Yq Zq Iq (coeff : C) (zipped : list (Z * Z * Z)) :
  zipped ≠ [] → Forall (λ n, (n.1.1 ≤ 0 ∧ n.1.2 ≤ 0 ∧ n.2 ≤ 0)%Z) zipped →
  term_operator Xq Yq Zq Iq coeff zipped
  = Ok (op_smul coeff (tensored_reversed Iq (replicate (length zipped) Iq))).
Proof.
  intros Hne Hzero. unfold term_operator.
  rewrite mapM_operator_on_spin_i. cbn [mbind result_bind].
  rewrite (local_operators_identity _ _ _ _ _ Hzero).
  rewrite (reduce_tensor_reverse Iq); [done |].
  by destruct zipped.
Qed.
End MapMore.

(** ** The further properties at matrices of Gaussian rationals *)

Module MoreRuns.
Import Gaussian GaussianMore LogarithmicMapper.

(** Spin 0 has dimension 1 and no qubit: the 1 by 1 matrices are embedded as
    they are and the decomposition of the first one raises. *)
Example encoding_spin_zero :
  num_qubits_of 0 = Ok 0%Z ∧
  _logarithmic_encoding (provider := spin_zero_provider) (Op := ndarray gq)
    0 (heap_of no_terms) = (Err ValueError_from_operator, heap_of no_terms).
Proof. split; reflexivity. Qed.

(** The float64 logarithm at the first dimensions above 2^48, 2^49 and 2^50 *)
Example float64_log2_above_powers :
  np_log2 (2 ^ 48 + 1) = Ok (f_real 48 false) ∧
  np_log2 (2 ^ 49 + 1) = Ok (f_real 49 true) ∧
  np_log2 (2 ^ 49 + 2) = Ok (f_real 49 false) ∧
  np_log2 (2 ^ 50 + 2) = Ok (f_real 50 true) ∧
  np_log2 (2 ^ 50 + 3) = Ok (f_real 50 false).
Proof. split_and!; reflexivity. Qed.

Lemma three_is_no_power_of_two (k : Z) : (0 ≤ k)%Z → (3 ≠ 2 ^ k)%Z.
Proof.
  intros Hk Heq.
  destruct (Z.le_gt_cases k 1) as [Hle | Hgt].
  - assert (k = 0 ∨ k = 1)%Z as [-> | ->] by lia; simpl in Heq; lia.
  - replace k with (2 + (k - 2))%Z in Heq by lia.
    rewrite Z.pow_add_r in Heq by lia. lia.
Qed.

Lemma embed_matrix_location_error_witness :
  (0 ≤ 2)%Z ∧
  ((shape0 spin_one_z < 2 ^ 2)%Z ∧ _location (self (Heap odd_mapper no_terms)) = NonMember) ∧
  (_embed_matrix spin_one_z 2 (Heap odd_mapper no_terms)).1 = Err ValueError_location.
Proof.
  assert (Hcond : (shape0 spin_one_z < 2 ^ 2)%Z ∧
                  _location (self (Heap odd_mapper no_terms)) = NonMember)
    by (split; reflexivity).
  split_and!; [lia | apply Hcond | apply Hcond |].
  apply (embed_matrix_location_error spin_one_z 2 (Heap odd_mapper no_terms)); [lia | exact Hcond].
Defined.

Lemma embed_matrix_result_shape_witness :
  let full := [[c1; c0; c0; c0]; [c0; c0; c0; c0]; [c0; c0; (-1, 0)%Q; c0]; [c0; c0; c0; c1]] in
  (0 ≤ 2)%Z ∧ has_shape 3 3 spin_one_z ∧
  _embed_matrix spin_one_z 2 (heap_of no_terms) = (Ok full, heap_of no_terms) ∧
  has_shape (Z.to_nat (2 ^ 2)) (Z.to_nat (2 ^ 2)) full.
Proof.
  intros full.
  assert (Hshape : has_shape 3 3 spin_one_z) by (apply has_shapeb_spec; reflexivity).
  split_and!; [lia | exact Hshape | reflexivity |].
  apply (embed_matrix_result_shape spin_one_z 2 (heap_of no_terms) 3 full (heap_of no_terms));
    [lia | exact Hshape | reflexivity].
Defined.

Lemma embed_matrix_rejects_rectangular_witness :
  (0 ≤ 2)%Z ∧ has_shape 2 3 two_by_three ∧ 0 < 2 ∧ 3 ≠ 2 ∧ (Z.of_nat 2 < 2 ^ 2)%Z ∧
  _location (self (heap_of no_terms)) = Member UPPER ∧
  _embed_matrix two_by_three 2 (heap_of no_terms)
  = (Err ValueError_block_shape, heap_of no_terms).
Proof.
  assert (Hshape : has_shape 2 3 two_by_three) by (apply has_shapeb_spec; reflexivity).
  split_and!; [lia | exact Hshape | lia | lia | lia | reflexivity |].
  apply (embed_matrix_rejects_rectangular two_by_three 2 (heap_of no_terms) 2 3 UPPER);
    [lia | exact Hshape | lia | lia | lia | reflexivity].
Defined.

Lemma embed_matrix_read_back_witness :
  (0 ≤ 2)%Z ∧ has_shape 3 3 spin_one_z ∧ (Z.of_nat 3 ≤ 2 ^ 2)%Z ∧
  _location (self (Heap (__init__ half (Member LOWER)) no_terms)) = Member LOWER ∧
  ∃ full, _embed_matrix spin_one_z 2 (Heap (__init__ half (Member LOWER)) no_terms)
          = (Ok full, Heap (__init__ half (Member LOWER)) no_terms) ∧
          let offset := block_offset LOWER 3 (Z.to_nat (2 ^ 2)) in
          sub_block offset offset 3 3 full = spin_one_z.
Proof.
  assert (Hshape : has_shape 3 3 spin_one_z) by (apply has_shapeb_spec; reflexivity).
  split_and!; [lia | exact Hshape | lia | reflexivity |].
  apply (embed_matrix_read_back spin_one_z 2
           (Heap (__init__ half (Member LOWER)) no_terms) LOWER 3);
    [lia | exact Hshape | lia | reflexivity].
Defined.

Lemma embed_identity_padding_one_witness :
  cmul (c1 : gq) c1 = c1 ∧ cmul (c0 : gq) c1 = c0 ∧ (0 ≤ 2)%Z ∧ (Z.of_nat 3 ≤ 2 ^ 2)%Z ∧
  _location (self (heap_of no_terms)) = Member UPPER ∧
  _padding (self (heap_of no_terms)) = c1 ∧
  _embed_matrix (np_eye 3) 2 (heap_of no_terms)
  = (Ok (np_eye (Z.to_nat (2 ^ 2))), heap_of no_terms).
Proof.
  split_and!; [reflexivity | reflexivity | lia | lia | reflexivity | reflexivity |].
  apply (embed_identity_padding_one 2 (heap_of no_terms) UPPER 3);
    [reflexivity | reflexivity | lia | lia | reflexivity | reflexivity].
Defined.

Lemma register_less_than_twice_dimension_witness :
  (1 ≤ dspin_of 1 ≤ 2 ^ 49)%Z ∧
  ∃ n, num_qubits_of 1 = Ok n ∧ (0 ≤ n)%Z ∧
       (dspin_of 1 ≤ 2 ^ n)%Z ∧ (2 ^ n < 2 * dspin_of 1)%Z.
Proof.
  assert (Hd : (1 ≤ dspin_of 1 ≤ 2 ^ 49)%Z) by (split; vm_compute; discriminate).
  split; [exact Hd |].
  apply (register_less_than_twice_dimension 1). exact Hd.
Defined.

Lemma dimension_is_floor_witness :
  (0 <= 2 * (3 # 4) + 1)%Q ∧
  (inject_Z (dspin_of (3 # 4)) <= 2 * (3 # 4) + 1)%Q ∧
  (2 * (3 # 4) + 1 < inject_Z (dspin_of (3 # 4) + 1))%Q.
Proof.
  split; [vm_compute; discriminate |].
  apply (dimension_is_floor (3 # 4)). vm_compute. discriminate.
Defined.

Lemma spin_half_rows (s : symbol) (m : ndarray gq) :
  spin_to_matrix (SpinMatrices := checked_provider) s (1 # 2) = Ok m → shape0 m = (2 ^ 1)%Z.
Proof. destruct s; intros Hm; vm_compute in Hm; by simplify_eq. Qed.

Lemma encoding_power_of_two_witness :
  (0 ≤ 1 < 64)%Z ∧ dspin_of (1 # 2) = (2 ^ 1)%Z ∧
  _logarithmic_encoding (provider := checked_provider) (Op := ndarray gq)
    (1 # 2) (Heap odd_mapper no_terms)
  = (spinx ← pauli_sum_of_matrix (spin_half sym_X);
     spiny ← pauli_sum_of_matrix (spin_half sym_Y);
     spinz ← pauli_sum_of_matrix (spin_half sym_Z);
     identity ← pauli_sum_of_matrix (np_eye (Z.to_nat (dspin_of (1 # 2))));
     mret (spinx, spiny, spinz, identity), Heap odd_mapper no_terms).
Proof.
  split_and!; [lia | lia | reflexivity |].
  apply (encoding_power_of_two (provider := checked_provider) (Op := ndarray gq)
           (1 # 2) (Heap odd_mapper no_terms) 1
           (spin_half sym_X) (spin_half sym_Y) (spin_half sym_Z));
    [lia | reflexivity | apply spin_half_rows | reflexivity | reflexivity | reflexivity].
Defined.

Lemma encoding_location_error_witness :
  (1 ≤ dspin_of 1 ≤ 2 ^ 49)%Z ∧ shape0 (spin_one sym_X) = dspin_of 1 ∧
  _location (self (Heap odd_mapper no_terms)) = NonMember ∧
  _logarithmic_encoding (provider := spin_one_provider) (Op := ndarray gq)
    1 (Heap odd_mapper no_terms)
  = (Err ValueError_location, Heap odd_mapper no_terms).
Proof.
  assert (Hd : (1 ≤ dspin_of 1 ≤ 2 ^ 49)%Z) by (split; vm_compute; discriminate).
  split_and!; [apply Hd | apply Hd | reflexivity | reflexivity |].
  apply (encoding_location_error (provider := spin_one_provider) (Op := ndarray gq)
           1 (Heap odd_mapper no_terms)
           (spin_one sym_X) (spin_one sym_Y) (spin_one sym_Z));
    [exact Hd | apply three_is_no_power_of_two
    | reflexivity | reflexivity | reflexivity | reflexivity | reflexivity].
Defined.

Lemma map_closed_form_witness :
  let Iq : ndarray gq := np_eye 2 in
  SpinOp.terms (second_q_op (heap_of two_terms)) = [term_xy; term_xx] ∧
  Forall (λ tm : SpinOp.term gq, SpinOp.exponents tm ≠ []) [term_xy; term_xx] ∧
  map (provider := checked_provider) (heap_of two_terms)
  = (Ok (foldl op_add
           (term_value (spin_half sym_X) (spin_half sym_Y) (spin_half sym_Z) Iq term_xy)
           (term_value (spin_half sym_X) (spin_half sym_Y) (spin_half sym_Z) Iq <$> [term_xx])),
     heap_of two_terms).
Proof.
  intros Iq.
  assert (Hmodes : Forall (λ tm : SpinOp.term gq, SpinOp.exponents tm ≠ [])
                          [term_xy; term_xx])
    by (repeat constructor; discriminate).
  split_and!; [reflexivity | exact Hmodes |].
  apply (map_closed_form (provider := checked_provider) (heap_of two_terms));
    [reflexivity | reflexivity | exact Hmodes].
Defined.

Lemma map_outcome_after_encoding_witness :
  (∃ q, (map (provider := checked_provider) (Op := ndarray gq) (heap_of two_terms)).1 = Ok q) ∧
  ∀ e, (map (provider := checked_provider) (Op := ndarray gq) (heap_of no_terms)).1 = Err e →
       e = TypeError_reduce_empty.
Proof.
  split.
  - destruct (map_outcome_after_encoding (provider := checked_provider) (Op := ndarray gq)
                (heap_of two_terms)
                (spin_half sym_X, spin_half sym_Y, spin_half sym_Z, np_eye 2))
      as [Hiff _]; [reflexivity |].
    apply Hiff. split; [discriminate | repeat constructor; discriminate].
  - destruct (map_outcome_after_encoding (provider := checked_provider) (Op := ndarray gq)
                (heap_of no_terms)
                (spin_half sym_X, spin_half sym_Y, spin_half sym_Z, np_eye 2))
      as [_ Herr]; [reflexivity |].
    exact Herr.
Defined.

Lemma map_append_term_witness :
  [term_xy] ≠ [] ∧
  (map (provider := checked_provider) (Op := ndarray gq)
     (Heap default_mapper (SpinOp.Make (1 # 2) ([term_xy] ++ [term_xx])))).1 =
  (q ← (map (provider := checked_provider)
          (Heap default_mapper (SpinOp.Make (1 # 2) [term_xy]))).1;
   r ← (map (provider := checked_provider)
          (Heap default_mapper (SpinOp.Make (1 # 2) [term_xx]))).1;
   mret (op_add q r)).
Proof.
  split; [discriminate |].
  apply (map_append_term (provider := checked_provider) (Op := ndarray gq)). discriminate.
Defined.

Lemma map_ignores_mapper_without_padding_witness :
  (0 ≤ 1)%Z ∧ dspin_of (SpinOp.spin two_terms) = (2 ^ 1)%Z ∧
  (map (provider := checked_provider) (Op := ndarray gq) (Heap default_mapper two_terms)).1
  = (map (provider := checked_provider) (Op := ndarray gq) (Heap odd_mapper two_terms)).1.
Proof.
  split_and!; [lia | reflexivity |].
  apply (map_ignores_mapper_without_padding (provider := checked_provider) (Op := ndarray gq)
           default_mapper odd_mapper two_terms 1);
    [lia | reflexivity | apply spin_half_rows].
Defined.

Lemma identity_term_operator_witness :
  let zipped := [(0, 0, 0); (0, 0, 0)]%Z in
  zipped ≠ [] ∧ Forall (λ n : Z * Z * Z, (n.1.1 ≤ 0 ∧ n.1.2 ≤ 0 ∧ n.2 ≤ 0)%Z) zipped ∧
  term_operator (spin_half sym_X) (spin_half sym_Y) (spin_half sym_Z) (np_eye 2)
    (c1 : gq) zipped
  = Ok (op_smul (c1 : gq) (tensored_reversed (np_eye 2) (replicate (length zipped) (np_eye 2)))).
Proof.
  intros zipped.
  assert (Hzero : Forall (λ n : Z * Z * Z, (n.1.1 ≤ 0 ∧ n.1.2 ≤ 0 ∧ n.2 ≤ 0)%Z) zipped)
    by (repeat constructor; simpl; lia).
  split_and!; [discriminate | exact Hzero |].
  apply (identity_term_operator (C := gq)); [discriminate | exact Hzero].
Defined.
End MoreRuns.
